(** * chash: a consistent-hash ring

    A shallow embedding of the hash ring of [atharvamhaske/chash] and the
    properties its specification states.

    The repository carries the ring twice:
    - package [consistenthash], in [hash_ring/hash_ring.go];
    - package [hashring], in [unnamed/part_002] together with its tests:
      the package of [hash-ring/benchmark_test.go], which [main.go]
      imports.
    The two files agree on everything (types, [HashRingInit], [AddNode],
    [RemoveNode], [binarySearch], [generateHash]) except one expression of
    [GetNode]: the key handed to [sync.Map.Load].  The shared functions are
    embedded once; [GetNode] is embedded once per package, in the modules
    [consistenthash] and [hashring].

    Modelling choices:
    - [uint64] and [int64] values are [Z], conversions written out;
    - [sync.Map] is a [gmap] whose keys are Go interface values ([any]): a
      key is a dynamic type together with a value, and two keys of different
      dynamic types are different keys;
    - the slice [sortedKeyOfNodes] is a [list Z], indices are [nat];
    - every operation runs under [ring.mu.Lock()]: a call is modelled as an
      atomic function from the ring before the call to its result, the ring
      after the call and the log records it printed;
    - [config.HashFunction()] returns a new hasher in its initial state, as
      [fnv.New64a] and [fnv.New64] do: a hash function is its initial
      state, its [Write] and its [Sum64]; module [stateful] has the hash
      function as a closure over a memory of hashers, which can hand out
      one hasher on every call, and its calls thread the memory;
    - [GetIdentifier] is a function of the node: the identifier of a node
      does not change while it is registered;
    - an out-of-range index or slice expression is the outcome [Panic]. *)

From Equations Require Import Equations.
From stdpp Require Import gmap strings list sorting.
From Stdlib Require Import ZArith Strings.Byte.

Local Open Scope Z_scope.

(** ** Machine integers *)

Definition uint64 (x : Z) : Z := x mod 2 ^ 64.
Definition int64 (x : Z) : Z := (x + 2 ^ 63) mod 2 ^ 64 - 2 ^ 63.

Definition is_uint64 (x : Z) : Prop := 0 ≤ x < 2 ^ 64.
Definition is_int64 (x : Z) : Prop := - 2 ^ 63 ≤ x < 2 ^ 63.

(** ** The Go library functions the ring calls *)

(** [hash.Hash64]: [Write] adds bytes to the running hash and may report an
    error ([None]); [Sum64] reads the hash, a [uint64]. *)
Module hash.
Record Hash64 : Type := {
  state : Type;
  New : state;
  Write : state → list byte → option state;
  Sum64 : state → Z;
  Sum64_uint64 : ∀ s, is_uint64 (Sum64 s)
}.
End hash.

Definition uint64_is_uint64 (x : Z) : is_uint64 (uint64 x) :=
  Z.mod_pos_bound x (2 ^ 64) eq_refl.

(** [hash/fnv]: the 64-bit FNV-1 and FNV-1a hashes, as [sum64.Write] and
    [sum64a.Write] compute them. *)
Module fnv.
Definition offset64 : Z := 14695981039346656037.
Definition prime64 : Z := 1099511628211.

(** [for _, c := range data { hash ^= sum64a(c); hash *= prime64 }] *)
Definition sum64a_Write (hash : Z) (data : list byte) : Z :=
  fold_left (λ hash c,
    uint64 (Z.lxor hash (Z.of_N (Byte.to_N c)) * prime64)) data hash.

(** [for _, c := range data { hash *= prime64; hash ^= sum64(c) }] *)
Definition sum64_Write (hash : Z) (data : list byte) : Z :=
  fold_left (λ hash c,
    Z.lxor (uint64 (hash * prime64)) (Z.of_N (Byte.to_N c))) data hash.

Definition New64a : hash.Hash64 := {|
  hash.state := Z;
  hash.New := offset64;
  hash.Write := λ s data, Some (sum64a_Write s data);
  hash.Sum64 := uint64;
  hash.Sum64_uint64 := uint64_is_uint64
|}.

Definition New64 : hash.Hash64 := {|
  hash.state := Z;
  hash.New := offset64;
  hash.Write := λ s data, Some (sum64_Write s data);
  hash.Sum64 := uint64;
  hash.Sum64_uint64 := uint64_is_uint64
|}.
End fnv.

(** [sort.Search]:
<<
  i, j := 0, n
  for i < j {
      h := int(uint(i+j) >> 1)
      if !f(h) { i = h + 1 } else { j = h }
  }
  return i
>> *)
Module sort.
Equations? Search_loop (f : nat → bool) (i j : nat) : nat by wf (j - i)%nat lt :=
  Search_loop f i j with decide (i < j)%nat => {
    | left _ =>
        if f ((i + j) / 2)%nat
        then Search_loop f i ((i + j) / 2)%nat
        else Search_loop f (S ((i + j) / 2)) j
    | right _ => i }.
Proof.
  all: pose proof (Nat.div_mod_eq (i + j) 2);
       pose proof (Nat.mod_upper_bound (i + j) 2); lia.
Qed.

Definition Search (n : nat) (f : nat → bool) : nat := Search_loop f 0 n.
End sort.

(** [slices.Sort] on a slice of [int64]: the ascending sort.  A sorted
    list of integers is determined by its elements, so any sorting algorithm
    gives this list (lemma [slices_Sort_unique] below). *)
Module slices.
Definition Sort (s : list Z) : list Z := merge_sort Z.le s.
End slices.

(** ** Errors, interface values, log records *)

Inductive sentinel : Set :=
  | ErrNoConnectedNodes
  | ErrNodeExits
  | ErrNodeNotFound
  | ErrInHashingKey.

(** An error is a sentinel, or [fmt.Errorf("%w: <detail>", sentinel)]. *)
Inductive error : Set :=
  | Sentinel (e : sentinel)
  | Errorf (e : sentinel) (detail : string).

Definition kind (err : error) : sentinel :=
  match err with Sentinel e => e | Errorf e _ => e end.

#[global] Instance sentinel_eq_dec : EqDecision sentinel.
Proof. solve_decision. Defined.

(** A key of [sync.Map] is an interface value: the ring uses the dynamic
    types [uint64] and [int64]. *)
Inductive any : Set :=
  | Uint64 (v : Z)
  | Int64 (v : Z).

#[global] Instance any_eq_dec : EqDecision any.
Proof. solve_decision. Defined.

#[global] Instance any_countable : Countable any.
Proof.
  refine (inj_countable'
    (λ k, match k with Uint64 v => inl v | Int64 v => inr v end)
    (λ s, match s with inl v => Uint64 v | inr v => Int64 v end) _).
  intros []; reflexivity.
Defined.

(** What [log.Printf] prints: the operation and its arguments. *)
Inductive logRecord : Set :=
  | LogAdded (identifier : string) (hashVal : Z)
  | LogMapped (key : string) (hashVal nodeHash : Z)
  | LogRemoved (identifier : string) (hashVal : Z).

(** ** The ring *)

Class CacheNode (Node : Type) := GetIdentifier : Node → string.

Record hashRingConfig : Type := {
  HashFunction : hash.Hash64;
  EnableLogs : bool
}.

Definition HashRingConfigFn : Type := hashRingConfig → hashRingConfig.

Definition SetHashFunction (f : hash.Hash64) : HashRingConfigFn :=
  λ config, {| HashFunction := f; EnableLogs := EnableLogs config |}.

Definition EnableVerboseLogs (enabled : bool) : HashRingConfigFn :=
  λ config, {| HashFunction := HashFunction config; EnableLogs := enabled |}.

Record HashRing (Node : Type) : Type := {
  config : hashRingConfig;
  nodes : gmap any Node;
  sortedKeyOfNodes : list Z
}.
Arguments config {Node} _.
Arguments nodes {Node} _.
Arguments sortedKeyOfNodes {Node} _.

(** The outcome of a call that returns [(value, error)] or [error]. *)
Inductive outcome (A : Type) : Type :=
  | Return (a : A)
  | Fail (err : error)
  | Panic.
Arguments Return {A} a.
Arguments Fail {A} err.
Arguments Panic {A}.

(** A completed call: its outcome, the ring it leaves, what it logged. *)
Record call (Node A : Type) : Type := Call {
  res : outcome A;
  ring_after : HashRing Node;
  logged : list logRecord
}.
Arguments Call {Node A} res ring_after logged.
Arguments res {Node A} _.
Arguments ring_after {Node A} _.
Arguments logged {Node A} _.

(** The call returned an error [err] for which [errors.Is(err, target)]. *)
Definition failed {A} (o : outcome A) (target : sentinel) : Prop :=
  ∃ err, o = Fail err ∧ kind err = target.

Section ring.
Context {Node : Type} `{CacheNode Node}.

Definition HashRingInit (opts : list HashRingConfigFn) : HashRing Node :=
  let config :=
    fold_left (λ config opt, opt config) opts
      {| HashFunction := fnv.New64a; EnableLogs := false |} in
  {| config := config; nodes := ∅; sortedKeyOfNodes := [] |}.

(** [None] is the error return [(0, err)]. *)
Definition generateHash (ring : HashRing Node) (key : string) : option Z :=
  let h := HashFunction (config ring) in
  match hash.Write h (hash.New h) (String.list_byte_of_string key) with
  | None => None
  | Some s => Some (hash.Sum64 h s)
  end.

(** The error return is [(-1, ErrNoConnectedNodes)].  [sort.Search] calls
    the closure below the length of the slice only (lemma [Search_ext]), so
    the index expression of the closure is in range. *)
Definition binarySearch (ring : HashRing Node) (key : Z) : outcome nat :=
  if decide (length (sortedKeyOfNodes ring) = 0%nat) then
    Fail (Sentinel ErrNoConnectedNodes)
  else
    let index :=
      sort.Search (length (sortedKeyOfNodes ring))
        (λ i, bool_decide (sortedKeyOfNodes ring !!! i >= key)) in
    let index :=
      if decide (index = length (sortedKeyOfNodes ring)) then 0%nat
      else index in
    Return index.

Definition AddNode (ring : HashRing Node) (node : Node) : call Node unit :=
  match generateHash ring (GetIdentifier node) with
  | None =>
      Call (Fail (Errorf ErrInHashingKey ("node " +:+ GetIdentifier node)))
        ring []
  | Some hashVal =>
      match nodes ring !! Uint64 hashVal with
      | Some _ =>
          Call (Fail (Errorf ErrNodeExits ("node " +:+ GetIdentifier node)))
            ring []
      | None =>
          let ring' := {|
            config := config ring;
            nodes := <[Uint64 hashVal := node]> (nodes ring);
            sortedKeyOfNodes :=
              slices.Sort (sortedKeyOfNodes ring ++ [int64 hashVal])
          |} in
          Call (Return ()) ring'
            (if EnableLogs (config ring)
             then [LogAdded (GetIdentifier node) hashVal] else [])
      end
  end.

Definition RemoveNode (ring : HashRing Node) (node : Node) : call Node unit :=
  match generateHash ring (GetIdentifier node) with
  | None =>
      Call (Fail (Errorf ErrInHashingKey (GetIdentifier node))) ring []
  | Some hashVal =>
      (* LoadAndDelete *)
      let loaded := nodes ring !! Uint64 hashVal in
      let ring1 := {|
        config := config ring;
        nodes := delete (Uint64 hashVal) (nodes ring);
        sortedKeyOfNodes := sortedKeyOfNodes ring
      |} in
      match loaded with
      | None =>
          Call (Fail (Errorf ErrNodeNotFound (GetIdentifier node))) ring1 []
      | Some _ =>
          match binarySearch ring1 (int64 hashVal) with
          | Fail err => Call (Fail err) ring1 []
          | Panic => Call Panic ring1 []
          | Return index =>
              (* sortedKeyOfNodes[:index], sortedKeyOfNodes[index+1:] *)
              if decide (index < length (sortedKeyOfNodes ring1))%nat then
                let ring2 := {|
                  config := config ring1;
                  nodes := nodes ring1;
                  sortedKeyOfNodes :=
                    take index (sortedKeyOfNodes ring1)
                    ++ drop (S index) (sortedKeyOfNodes ring1)
                |} in
                Call (Return ()) ring2
                  (if EnableLogs (config ring)
                   then [LogRemoved (GetIdentifier node) hashVal] else [])
              else Call Panic ring1 []
          end
      end
  end.
End ring.

(** [GetNode] of package [consistenthash] ([hash_ring/hash_ring.go]): the
    node is loaded with the [int64] taken from the slice,
    [ring.nodes.Load(nodeHash)]. *)
Module consistenthash.
Section ring.
Context {Node : Type} `{CacheNode Node}.

Definition GetNode (ring : HashRing Node) (key : string) : call Node Node :=
  match generateHash ring key with
  | None => Call (Fail (Errorf ErrInHashingKey key)) ring []
  | Some hashVal =>
      match binarySearch ring (int64 hashVal) with
      | Fail err => Call (Fail err) ring []
      | Panic => Call Panic ring []
      | Return index =>
          match sortedKeyOfNodes ring !! index with
          | None => Call Panic ring []
          | Some nodeHash =>
              match nodes ring !! Int64 nodeHash with
              | Some node =>
                  Call (Return node) ring
                    (if EnableLogs (config ring)
                     then [LogMapped key hashVal nodeHash] else [])
              | None =>
                  Call (Fail (Errorf ErrNodeNotFound
                                ("no node found for key " +:+ key))) ring []
              end
          end
      end
  end.
End ring.
End consistenthash.

(** [GetNode] of package [hashring] ([unnamed/part_002]): the [int64] is
    converted back, [ring.nodes.Load(uint64(nodeHash))], "to match the key
    type used when storing". *)
Module hashring.
Section ring.
Context {Node : Type} `{CacheNode Node}.

Definition GetNode (ring : HashRing Node) (key : string) : call Node Node :=
  match generateHash ring key with
  | None => Call (Fail (Errorf ErrInHashingKey key)) ring []
  | Some hashVal =>
      match binarySearch ring (int64 hashVal) with
      | Fail err => Call (Fail err) ring []
      | Panic => Call Panic ring []
      | Return index =>
          match sortedKeyOfNodes ring !! index with
          | None => Call Panic ring []
          | Some nodeHash =>
              match nodes ring !! Uint64 (uint64 nodeHash) with
              | Some node =>
                  Call (Return node) ring
                    (if EnableLogs (config ring)
                     then [LogMapped key hashVal nodeHash] else [])
              | None =>
                  Call (Fail (Errorf ErrNodeNotFound
                                ("no node found for key " +:+ key))) ring []
              end
          end
      end
  end.
End ring.
End hashring.

(** ** Notions the properties are stated with *)

(** The index [sort.Search] returns inside [binarySearch], before the
    wrap-around. *)
Definition lower_bound (l : list Z) (key : Z) : nat :=
  sort.Search (length l) (λ i, bool_decide (l !!! i >= key)).

(** The policy of the specification: the smallest stored hash at or after
    [key]; the smallest stored hash when every stored hash is before
    [key]. *)
Definition ring_successor (l : list Z) (key s : Z) : Prop :=
  s ∈ l ∧
  ((key ≤ s ∧ ∀ t, t ∈ l → key ≤ t → s ≤ t) ∨
   ((∀ t, t ∈ l → t < key) ∧ ∀ t, t ∈ l → s ≤ t)).

(** The index [binarySearch] returns on a non-empty slice. *)
Definition search_index (l : list Z) (key : Z) : nat :=
  if decide (lower_bound l key = length l) then 0%nat else lower_bound l key.

Section states.
Context {Node : Type} `{CacheNode Node}.
Implicit Types ring : HashRing Node.

(** The hash values of the mapping, and those of the ordered sequence
    (an [int64] of the sequence is the [uint64] with the same bits). *)
Definition mapping_hashes ring : gset any := dom (nodes ring).
Definition sequence_hashes ring : gset any :=
  list_to_set ((λ v, Uint64 (uint64 v)) <$> sortedKeyOfNodes ring).

Definition I1 ring : Prop := mapping_hashes ring = sequence_hashes ring.
Definition I2 ring : Prop :=
  NoDup (sortedKeyOfNodes ring) ∧ Sorted Z.le (sortedKeyOfNodes ring).

(** What every ring built through the interface satisfies: I1, I2, the
    sequence holds [int64] values, and a node is stored at the hash of
    its identifier. *)
Record consistent ring : Prop := {
  consistent_I1 : I1 ring;
  consistent_sorted : StronglySorted Z.lt (sortedKeyOfNodes ring);
  consistent_int64 : Forall is_int64 (sortedKeyOfNodes ring);
  consistent_hash : ∀ k node,
    nodes ring !! k = Some node →
    ∃ h, k = Uint64 h ∧ generateHash ring (GetIdentifier node) = Some h
}.

(** The mutating calls, and the rings they build from [HashRingInit]. *)
Inductive op : Type :=
  | Add (node : Node)
  | Remove (node : Node).

Definition step ring (o : op) : HashRing Node :=
  match o with
  | Add node => ring_after (AddNode ring node)
  | Remove node => ring_after (RemoveNode ring node)
  end.

Definition run (opts : list HashRingConfigFn) (ops : list op) : HashRing Node :=
  fold_left step ops (HashRingInit opts).

Definition reachable ring : Prop := ∃ opts ops, ring = run opts ops.

(** The ring with its logging switch set. *)
Definition with_logs (enabled : bool) ring : HashRing Node :=
  {| config := EnableVerboseLogs enabled (config ring);
     nodes := nodes ring;
     sortedKeyOfNodes := sortedKeyOfNodes ring |}.

End states.

(** FNV-1a on 64 bits, as the algorithm is published: start from the
    offset basis; for each octet of the input, XOR the octet into the
    hash, then multiply the hash by the FNV prime, modulo [2^64]. *)
Module FNV1a.
Definition offset_basis : Z := 0xcbf29ce484222325.
Definition FNV_prime : Z := 0x100000001b3.

Fixpoint hash_octets (hash : Z) (octets : list byte) : Z :=
  match octets with
  | [] => hash
  | octet :: octets =>
      hash_octets
        ((Z.lxor hash (Z.of_N (Byte.to_N octet)) * FNV_prime) mod 2 ^ 64)
        octets
  end.

Definition hash64 (input : string) : Z :=
  hash_octets offset_basis (String.list_byte_of_string input).
End FNV1a.

(** The nodes of the tests: [mockNode{identifier}]. *)
Record mockNode : Set := { identifier : string }.

#[global] Instance mockNode_CacheNode : CacheNode mockNode := identifier.

Definition node1 : mockNode := {| identifier := "node1" |}.
Definition node2 : mockNode := {| identifier := "node2" |}.
Definition node3 : mockNode := {| identifier := "node3" |}.

(** A [hash.Hash64] whose [Write] reports an error. *)
Definition failingHash : hash.Hash64 := {|
  hash.state := unit;
  hash.New := ();
  hash.Write := λ _ _, None;
  hash.Sum64 := λ _, uint64 0;
  hash.Sum64_uint64 := λ _, uint64_is_uint64 0
|}.

(** The ring of the tests that register [node1], [node2] and [node3]. *)
Definition three_nodes : HashRing mockNode :=
  run [] [Add node1; Add node2; Add node3].

(** The nodes of [main.go]: [DemoNode{ID, Data}], identified by [ID]. *)
Record DemoNode : Type := { ID : string; Data : gmap string string }.

#[global] Instance DemoNode_CacheNode : CacheNode DemoNode := ID.

(** ** The hash function as a closure *)

(** [config.HashFunction] is a [func() hash.Hash64]: a call returns an
    interface value, the methods of a hasher with a pointer to it.
    [fnv.New64a] allocates the hasher it returns
    ([var s sum64a = offset64; return &s]); a closure can as well return a
    hasher it holds, the same one on every call.  In this module the
    hashers live in a memory, the hash function returns an address,
    [Write] updates the hasher at this address, and every call on the
    ring takes the memory and leaves one.  The embedding above is what
    these calls compute when every call of the hash function returns a
    hasher in its initial state (lemmas [generateHash_returns_new] and
    [GetNode_returns_new] below). *)
Module stateful.

(** A hasher in memory: its methods and its running state. *)
Definition hasher : Type := { h : hash.Hash64 & hash.state h }.
Definition memory : Type := list hasher.

(** [func() hash.Hash64]: the address of the hasher it returns and the
    memory it leaves. *)
Definition HashFunc : Type := memory → nat * memory.

(** A constructor of hashers, as [fnv.New64a] and [fnv.New64] are. *)
Definition New (h : hash.Hash64) : HashFunc :=
  λ m, (length m, m ++ [existT h (hash.New h)]).

(** [func() hash.Hash64 { return hasher }], for the hasher at [p]. *)
Definition Shared (p : nat) : HashFunc := λ m, (p, m).

(** Every call of [f] returns a hasher with the methods [h], in its
    initial state. *)
Definition returns_new (f : HashFunc) (h : hash.Hash64) : Prop :=
  ∀ m, (f m).2 !! (f m).1 = Some (existT h (hash.New h)).

Record hashRingConfig : Type := {
  HashFunction : HashFunc;
  EnableLogs : bool
}.

Definition HashRingConfigFn : Type := hashRingConfig → hashRingConfig.

Definition SetHashFunction (f : HashFunc) : HashRingConfigFn :=
  λ config, {| HashFunction := f; EnableLogs := EnableLogs config |}.

Definition EnableVerboseLogs (enabled : bool) : HashRingConfigFn :=
  λ config, {| HashFunction := HashFunction config; EnableLogs := enabled |}.

Record HashRing (Node : Type) : Type := {
  config : hashRingConfig;
  nodes : gmap any Node;
  sortedKeyOfNodes : list Z
}.
Arguments config {Node} _.
Arguments nodes {Node} _.
Arguments sortedKeyOfNodes {Node} _.

(** A completed call: its outcome, the ring and the memory it leaves,
    what it logged. *)
Record call (Node A : Type) : Type := Call {
  res : outcome A;
  ring_after : HashRing Node;
  memory_after : memory;
  logged : list logRecord
}.
Arguments Call {Node A} res ring_after memory_after logged.
Arguments res {Node A} _.
Arguments ring_after {Node A} _.
Arguments memory_after {Node A} _.
Arguments logged {Node A} _.

(** What [generateHash] returns: [(hash, nil)], or [(0, err)]; it panics
    when the hash function returned no hasher. *)
Inductive hashed : Set :=
  | Hash (hashVal : Z)
  | HashErr
  | HashPanic.

Section ring.
Context {Node : Type} `{CacheNode Node}.

Definition HashRingInit (opts : list HashRingConfigFn) : HashRing Node :=
  let config :=
    fold_left (λ config opt, opt config) opts
      {| HashFunction := New fnv.New64a; EnableLogs := false |} in
  {| config := config; nodes := ∅; sortedKeyOfNodes := [] |}.

(** [h := ring.config.HashFunction()], [h.Write([]byte(key))],
    [h.Sum64()]. *)
Definition generateHash (ring : HashRing Node) (key : string) (m : memory) :
    hashed * memory :=
  let '(p, m) := HashFunction (config ring) m in
  match m !! p with
  | None => (HashPanic, m)
  | Some (existT h s) =>
      match hash.Write h s (String.list_byte_of_string key) with
      | None => (HashErr, m)
      | Some s => (Hash (hash.Sum64 h s), <[p := existT h s]> m)
      end
  end.

Definition binarySearch (ring : HashRing Node) (key : Z) : outcome nat :=
  if decide (length (sortedKeyOfNodes ring) = 0%nat) then
    Fail (Sentinel ErrNoConnectedNodes)
  else
    let index :=
      sort.Search (length (sortedKeyOfNodes ring))
        (λ i, bool_decide (sortedKeyOfNodes ring !!! i >= key)) in
    let index :=
      if decide (index = length (sortedKeyOfNodes ring)) then 0%nat
      else index in
    Return index.

Definition AddNode (ring : HashRing Node) (node : Node) (m : memory) :
    call Node unit :=
  match generateHash ring (GetIdentifier node) m with
  | (HashPanic, m) => Call Panic ring m []
  | (HashErr, m) =>
      Call (Fail (Errorf ErrInHashingKey ("node " +:+ GetIdentifier node)))
        ring m []
  | (Hash hashVal, m) =>
      match nodes ring !! Uint64 hashVal with
      | Some _ =>
          Call (Fail (Errorf ErrNodeExits ("node " +:+ GetIdentifier node)))
            ring m []
      | None =>
          let ring' := {|
            config := config ring;
            nodes := <[Uint64 hashVal := node]> (nodes ring);
            sortedKeyOfNodes :=
              slices.Sort (sortedKeyOfNodes ring ++ [int64 hashVal])
          |} in
          Call (Return ()) ring' m
            (if EnableLogs (config ring)
             then [LogAdded (GetIdentifier node) hashVal] else [])
      end
  end.

(** [AddNode] for each node of a list, in order. *)
Definition AddNodes (ring : HashRing Node) (l : list Node) (m : memory) :
    HashRing Node * memory :=
  fold_left (λ '(ring, m) node,
    let c := AddNode ring node m in (ring_after c, memory_after c))
    l (ring, m).
End ring.

(** [GetNode] of package [consistenthash]. *)
Module consistenthash.
Section ring.
Context {Node : Type} `{CacheNode Node}.

Definition GetNode (ring : HashRing Node) (key : string) (m : memory) :
    call Node Node :=
  match generateHash ring key m with
  | (HashPanic, m) => Call Panic ring m []
  | (HashErr, m) => Call (Fail (Errorf ErrInHashingKey key)) ring m []
  | (Hash hashVal, m) =>
      match binarySearch ring (int64 hashVal) with
      | Fail err => Call (Fail err) ring m []
      | Panic => Call Panic ring m []
      | Return index =>
          match sortedKeyOfNodes ring !! index with
          | None => Call Panic ring m []
          | Some nodeHash =>
              match nodes ring !! Int64 nodeHash with
              | Some node =>
                  Call (Return node) ring m
                    (if EnableLogs (config ring)
                     then [LogMapped key hashVal nodeHash] else [])
              | None =>
                  Call (Fail (Errorf ErrNodeNotFound
                                ("no node found for key " +:+ key))) ring m []
              end
          end
      end
  end.
End ring.
End consistenthash.

(** [GetNode] of package [hashring]. *)
Module hashring.
Section ring.
Context {Node : Type} `{CacheNode Node}.

Definition GetNode (ring : HashRing Node) (key : string) (m : memory) :
    call Node Node :=
  match generateHash ring key m with
  | (HashPanic, m) => Call Panic ring m []
  | (HashErr, m) => Call (Fail (Errorf ErrInHashingKey key)) ring m []
  | (Hash hashVal, m) =>
      match binarySearch ring (int64 hashVal) with
      | Fail err => Call (Fail err) ring m []
      | Panic => Call Panic ring m []
      | Return index =>
          match sortedKeyOfNodes ring !! index with
          | None => Call Panic ring m []
          | Some nodeHash =>
              match nodes ring !! Uint64 (uint64 nodeHash) with
              | Some node =>
                  Call (Return node) ring m
                    (if EnableLogs (config ring)
                     then [LogMapped key hashVal nodeHash] else [])
              | None =>
                  Call (Fail (Errorf ErrNodeNotFound
                                ("no node found for key " +:+ key))) ring m []
              end
          end
      end
  end.
End ring.
End hashring.

(** A run of [GetNode] calls, one per key, each on the ring and the
    memory the call before it left. *)
Fixpoint GetNodes {Node : Type}
    (GetNode : HashRing Node → string → memory → call Node Node)
    (ring : HashRing Node) (keys : list string) (m : memory) :
    list (outcome Node) * HashRing Node * memory :=
  match keys with
  | [] => ([], ring, m)
  | key :: keys =>
      let c := GetNode ring key m in
      let '(results, ring', m') :=
        GetNodes GetNode (ring_after c) keys (memory_after c) in
      (res c :: results, ring', m')
  end.

End stateful.

(** The ring of the embedding above with the mapping, the sequence and the
    logging switch of [ring], and the hash function that returns new
    hashers with the methods [h]. *)
Definition stateless {Node : Type} (h : hash.Hash64)
    (ring : stateful.HashRing Node) : HashRing Node :=
  {| config := {| HashFunction := h;
                  EnableLogs := stateful.EnableLogs (stateful.config ring) |};
     nodes := stateful.nodes ring;
     sortedKeyOfNodes := stateful.sortedKeyOfNodes ring |}.

(** The three nodes of the tests registered on a ring with the default
    hash function, from an empty memory. *)
Definition three_nodes_new : stateful.HashRing mockNode * stateful.memory :=
  stateful.AddNodes (stateful.HashRingInit []) [node1; node2; node3] [].

(** The three nodes registered on a ring whose hash function hands out one
    hasher:
<<
  h := fnv.New64a()
  ring := HashRingInit(SetHashFunction(func() hash.Hash64 { return h }))
>> *)
Definition three_nodes_shared : stateful.HashRing mockNode * stateful.memory :=
  stateful.AddNodes
    (stateful.HashRingInit [stateful.SetHashFunction (stateful.Shared 0)])
    [node1; node2; node3]
    [existT fnv.New64a (hash.New fnv.New64a)].

(** * Lemmas on the embedding *)

(** ** Integer conversions *)

Lemma int64_is_int64 x : is_int64 (int64 x).
Proof.
  unfold is_int64, int64.
  pose proof (Z.mod_pos_bound (x + 2 ^ 63) (2 ^ 64)). lia.
Qed.

Lemma uint64_int64 x : is_uint64 x → uint64 (int64 x) = x.
Proof.
  unfold is_uint64, uint64, int64. intros Hx.
  destruct (decide (x < 2 ^ 63)).
  - rewrite (Z.mod_small (x + 2 ^ 63)) by lia.
    replace (x + 2 ^ 63 - 2 ^ 63) with x by lia. apply Z.mod_small. lia.
  - replace (x + 2 ^ 63) with (x - 2 ^ 63 + 1 * 2 ^ 64) by lia.
    rewrite Z.mod_add by lia. rewrite (Z.mod_small (x - 2 ^ 63)) by lia.
    replace (x - 2 ^ 63 - 2 ^ 63) with (x + (-1) * 2 ^ 64) by lia.
    rewrite Z.mod_add by lia. apply Z.mod_small. lia.
Qed.

Lemma int64_uint64 x : is_int64 x → int64 (uint64 x) = x.
Proof.
  unfold is_int64, uint64, int64. intros Hx.
  destruct (decide (0 ≤ x)).
  - rewrite (Z.mod_small x) by lia. rewrite Z.mod_small by lia. lia.
  - replace x with (x + 2 ^ 64 + (-1) * 2 ^ 64) at 1 by lia.
    rewrite Z.mod_add by lia. rewrite (Z.mod_small (x + 2 ^ 64)) by lia.
    replace (x + 2 ^ 64 + 2 ^ 63) with (x + 2 ^ 63 + 1 * 2 ^ 64) by lia.
    rewrite Z.mod_add by lia. rewrite Z.mod_small by lia. lia.
Qed.

(** ** [sort.Search] *)

(** The loop keeps [f] false below [i] and true from [j] on. *)
Lemma Search_loop_bounds f i j :
  (i ≤ j)%nat →
  (i ≤ sort.Search_loop f i j ≤ j)%nat.
Proof.
  funelim (sort.Search_loop f i j); intros Hij; [|lia].
  assert ((i + j) / 2 < j ∧ i ≤ (i + j) / 2)%nat as [Hh1 Hh2].
  { pose proof (Nat.div_mod_eq (i + j) 2).
    pose proof (Nat.mod_upper_bound (i + j) 2). lia. }
  destruct (f ((i + j) / 2)%nat).
  - match goal with
    | IH : (_ ≤ _)%nat → (_ ≤ sort.Search_loop _ i _ ≤ _)%nat |- _ =>
        specialize (IH Hh2); lia
    end.
  - match goal with
    | IH : (_ ≤ _)%nat → (_ ≤ sort.Search_loop _ (S _) _ ≤ _)%nat |- _ =>
        specialize (IH Hh1); lia
    end.
Qed.

Lemma Search_loop_spec (n : nat) f i j :
  (∀ a b : nat, (a ≤ b < n)%nat → f a = true → f b = true) →
  (i ≤ j ≤ n)%nat →
  (∀ k : nat, (k < i)%nat → f k = false) →
  (∀ k : nat, (j ≤ k < n)%nat → f k = true) →
  (∀ k : nat, (k < sort.Search_loop f i j)%nat → f k = false) ∧
  (∀ k : nat, (sort.Search_loop f i j ≤ k < n)%nat → f k = true).
Proof.
  intros Hmono. funelim (sort.Search_loop f i j); intros Hij Hlo Hhi.
  - assert ((i + j) / 2 < j ∧ i ≤ (i + j) / 2)%nat as [Hh1 Hh2].
    { pose proof (Nat.div_mod_eq (i + j) 2).
      pose proof (Nat.mod_upper_bound (i + j) 2). lia. }
    destruct (f ((i + j) / 2)%nat) eqn:Hf.
    + match goal with
      | IH : ∀ n : nat, _ → (i ≤ _ ≤ n)%nat → _ |- _ =>
          apply (IH n); [done | lia | done |]
      end.
      intros k Hk. apply (Hmono ((i + j) / 2)%nat); [lia | done].
    + match goal with
      | IH : ∀ n : nat, _ → (S _ ≤ _ ≤ n)%nat → _ |- _ =>
          apply (IH n); [done | lia | | done]
      end.
      intros k Hk. destruct (f k) eqn:Hfk; [|done].
      rewrite (Hmono k ((i + j) / 2)%nat) in Hf; [done | lia | done].
  - split; [done|]. intros k Hk. apply Hhi. lia.
Qed.

(** On a monotone predicate, [sort.Search n f] is the least index at which
    [f] holds, and [n] when there is none. *)
Lemma Search_spec (n : nat) f :
  (∀ a b : nat, (a ≤ b < n)%nat → f a = true → f b = true) →
  (sort.Search n f ≤ n)%nat ∧
  (∀ k : nat, (k < sort.Search n f)%nat → f k = false) ∧
  (∀ k : nat, (sort.Search n f ≤ k < n)%nat → f k = true).
Proof.
  intros Hmono. unfold sort.Search. split.
  - pose proof (Search_loop_bounds f 0 n). lia.
  - apply (Search_loop_spec n); [done | lia | lia | lia].
Qed.

(** [sort.Search n f] calls [f] on indices below [n] only: the closure of
    [binarySearch] never indexes the slice out of range. *)
Lemma Search_loop_ext (n : nat) f g i j :
  (∀ k : nat, (k < n)%nat → f k = g k) → (j ≤ n)%nat →
  sort.Search_loop f i j = sort.Search_loop g i j.
Proof.
  intros Hfg. funelim (sort.Search_loop f i j); intros Hj;
    rewrite (sort.Search_loop_equation_1 g i j), Heq;
    [|reflexivity].
  change (sort.Search_loop_unfold_clause_1 g i j (left l))
    with (if g ((i + j) / 2)%nat
          then sort.Search_loop g i ((i + j) / 2)%nat
          else sort.Search_loop g (S ((i + j) / 2)) j).
  assert ((i + j) / 2 < j)%nat as Hh.
  { pose proof (Nat.div_mod_eq (i + j) 2).
    pose proof (Nat.mod_upper_bound (i + j) 2). lia. }
  rewrite <- (Hfg ((i + j) / 2)%nat) by lia.
  destruct (f ((i + j) / 2)%nat).
  - match goal with
    | IH : ∀ n g, _ → (_ / 2 ≤ n)%nat → _ |- _ => apply (IH n); [done | lia]
    end.
  - match goal with
    | IH : ∀ n g, _ → (j ≤ n)%nat → _ |- _ => by apply (IH n)
    end.
Qed.

Lemma Search_ext (n : nat) f g :
  (∀ k : nat, (k < n)%nat → f k = g k) → sort.Search n f = sort.Search n g.
Proof. intros Hfg. by apply (Search_loop_ext n). Qed.

(** ** [slices.Sort] *)

Lemma slices_Sort_sorted s : StronglySorted Z.le (slices.Sort s).
Proof. apply StronglySorted_merge_sort; apply _. Qed.

Lemma slices_Sort_perm s : slices.Sort s ≡ₚ s.
Proof. apply merge_sort_Permutation. Qed.

(** Any ascending arrangement of the elements of [s] is [slices.Sort s]. *)
Lemma slices_Sort_unique s s' :
  StronglySorted Z.le s' → s' ≡ₚ s → s' = slices.Sort s.
Proof.
  intros Hs Hp. apply (StronglySorted_unique Z.le); [done | |].
  - apply slices_Sort_sorted.
  - by rewrite slices_Sort_perm.
Qed.

Lemma elem_of_slices_Sort s x : x ∈ slices.Sort s ↔ x ∈ s.
Proof. by rewrite slices_Sort_perm. Qed.

(** A sorted list without duplicates is strictly ascending, and back. *)
Lemma strictly_sorted l :
  StronglySorted Z.le l → NoDup l → StronglySorted Z.lt l.
Proof.
  induction 1 as [|a l Hl IH Ha]; intros Hnd; [constructor|].
  apply NoDup_cons in Hnd as [Hnotin Hnd]. constructor; [by apply IH|].
  rewrite Forall_forall in Ha |- *. intros b Hb.
  specialize (Ha b Hb). assert (a ≠ b) by (intros ->; done). lia.
Qed.

Lemma strictly_sorted_le l : StronglySorted Z.lt l → StronglySorted Z.le l.
Proof.
  induction 1 as [|a l Hl IH Ha]; constructor; [done|].
  eapply Forall_impl; [done|]. intros; simpl in *; lia.
Qed.

Lemma strictly_sorted_NoDup l : StronglySorted Z.lt l → NoDup l.
Proof.
  induction 1 as [|a l Hl IH Ha]; constructor; [|done].
  rewrite Forall_forall in Ha. intros Hin. specialize (Ha a Hin). lia.
Qed.

Lemma sorted_lookup_le l (i j : nat) a b :
  StronglySorted Z.le l → l !! i = Some a → l !! j = Some b →
  (i ≤ j)%nat → a ≤ b.
Proof.
  intros Hl. revert i j. induction Hl as [|c l Hl IH Hc]; intros i j Hi Hj Hij.
  { done. }
  destruct i as [|i], j as [|j]; simpl in *; simplify_eq; try lia.
  - rewrite Forall_forall in Hc. apply Hc. by eapply list_elem_of_lookup_2.
  - eapply IH; [done | done | lia].
Qed.

Lemma sorted_lookup_lt l (i j : nat) a b :
  StronglySorted Z.lt l → l !! i = Some a → l !! j = Some b →
  (i < j)%nat → a < b.
Proof.
  intros Hl. revert i j. induction Hl as [|c l Hl IH Hc]; intros i j Hi Hj Hij.
  { done. }
  destruct i as [|i], j as [|j]; simpl in *; simplify_eq; try lia.
  - rewrite Forall_forall in Hc. apply Hc. by eapply list_elem_of_lookup_2.
  - eapply IH; [done | done | lia].
Qed.

(** ** The ordered search *)

Lemma lower_bound_le l key : (lower_bound l key ≤ length l)%nat.
Proof.
  unfold lower_bound, sort.Search.
  pose proof (Search_loop_bounds (λ i, bool_decide (l !!! i >= key)) 0 (length l)).
  lia.
Qed.

Lemma lower_bound_spec l key :
  StronglySorted Z.le l →
  (∀ (i : nat) a, l !! i = Some a → (i < lower_bound l key)%nat → a < key) ∧
  (∀ (i : nat) a, l !! i = Some a → (lower_bound l key ≤ i)%nat → key ≤ a).
Proof.
  intros Hl. unfold lower_bound.
  destruct (Search_spec (length l) (λ i, bool_decide (l !!! i >= key)))
    as (_ & Hlo & Hhi).
  { intros a b Hab Ha. apply bool_decide_eq_true in Ha.
    apply bool_decide_eq_true.
    destruct (lookup_lt_is_Some_2 l a) as [x Hx]; [lia|].
    destruct (lookup_lt_is_Some_2 l b) as [y Hy]; [lia|].
    rewrite (list_lookup_total_correct _ _ _ Hx) in Ha.
    rewrite (list_lookup_total_correct _ _ _ Hy).
    pose proof (sorted_lookup_le l a b x y Hl Hx Hy). lia. }
  split; intros i a Hi Hlt.
  - specialize (Hlo i Hlt). apply bool_decide_eq_false in Hlo.
    rewrite (list_lookup_total_correct _ _ _ Hi) in Hlo. lia.
  - apply lookup_lt_Some in Hi as Hlen.
    specialize (Hhi i (conj Hlt Hlen)). apply bool_decide_eq_true in Hhi.
    rewrite (list_lookup_total_correct _ _ _ Hi) in Hhi. lia.
Qed.

Lemma lower_bound_unique l key (p : nat) :
  StronglySorted Z.le l →
  (p ≤ length l)%nat →
  (∀ (i : nat) a, l !! i = Some a → (i < p)%nat → a < key) →
  (∀ (i : nat) a, l !! i = Some a → (p ≤ i)%nat → key ≤ a) →
  lower_bound l key = p.
Proof.
  intros Hl Hp Hlo Hhi.
  destruct (lower_bound_spec l key Hl) as [Hlo' Hhi'].
  pose proof (lower_bound_le l key) as Hle.
  destruct (Nat.lt_trichotomy (lower_bound l key) p) as [Hlt | [Heq | Hgt]];
    [|done|].
  - destruct (lookup_lt_is_Some_2 l (lower_bound l key)) as [a Ha]; [lia|].
    specialize (Hlo _ _ Ha Hlt). specialize (Hhi' _ _ Ha). lia.
  - destruct (lookup_lt_is_Some_2 l p) as [a Ha]; [lia|].
    specialize (Hlo' _ _ Ha Hgt). specialize (Hhi _ _ Ha). lia.
Qed.

(** In a strictly ascending list the search for a stored value lands on
    its position. *)
Lemma lower_bound_lookup l (ix : nat) e :
  StronglySorted Z.lt l → l !! ix = Some e → lower_bound l e = ix.
Proof.
  intros Hl Hix. apply lower_bound_unique.
  - by apply strictly_sorted_le.
  - apply lookup_lt_Some in Hix. lia.
  - intros i a Hi Hlt. by eapply (sorted_lookup_lt l i ix).
  - intros i a Hi Hle. destruct (decide (i = ix)) as [->|Hne].
    + simplify_eq. lia.
    + pose proof (sorted_lookup_lt l ix i e a Hl Hix Hi). lia.
Qed.

Lemma search_index_lt l key : l ≠ [] → (search_index l key < length l)%nat.
Proof.
  intros Hl. unfold search_index. pose proof (lower_bound_le l key).
  destruct l; [done|]. case_decide; simpl in *; lia.
Qed.

Lemma search_index_successor l key :
  StronglySorted Z.le l → l ≠ [] →
  ∃ s, l !! search_index l key = Some s ∧ ring_successor l key s.
Proof.
  intros Hl Hne.
  destruct (lookup_lt_is_Some_2 l (search_index l key)) as [s Hs].
  { by apply search_index_lt. }
  exists s. split; [done|]. split; [by eapply list_elem_of_lookup_2|].
  destruct (lower_bound_spec l key Hl) as [Hlo Hhi].
  unfold search_index in Hs. case_decide as Hwrap.
  - right. split.
    + intros t [i Hi]%list_elem_of_lookup. apply (Hlo i t Hi).
      apply lookup_lt_Some in Hi. lia.
    + intros t [i Hi]%list_elem_of_lookup.
      apply (sorted_lookup_le l 0 i s t); [done | done | done | lia].
  - left. split.
    + by apply (Hhi _ _ Hs).
    + intros t [i Hi]%list_elem_of_lookup Hkt.
      destruct (decide (lower_bound l key ≤ i)%nat).
      * by apply (sorted_lookup_le l (lower_bound l key) i s t).
      * specialize (Hlo i t Hi). lia.
Qed.

Section search.
Context {Node : Type} `{CacheNode Node}.
Implicit Types ring : HashRing Node.

Lemma binarySearch_empty ring key :
  sortedKeyOfNodes ring = [] →
  binarySearch ring key = Fail (Sentinel ErrNoConnectedNodes).
Proof. intros Hl. unfold binarySearch. by rewrite Hl. Qed.

Lemma binarySearch_nonempty ring key :
  sortedKeyOfNodes ring ≠ [] →
  binarySearch ring key = Return (search_index (sortedKeyOfNodes ring) key).
Proof.
  intros Hl. unfold binarySearch. case_decide as Hlen.
  - by apply length_zero_iff_nil in Hlen.
  - reflexivity.
Qed.

Lemma generateHash_uint64 ring key h :
  generateHash ring key = Some h → is_uint64 h.
Proof.
  unfold generateHash. intros Hh. case_match; simplify_eq.
  apply hash.Sum64_uint64.
Qed.

Lemma generateHash_eq ring ring' key :
  config ring = config ring' →
  generateHash ring key = generateHash ring' key.
Proof. intros Heq. unfold generateHash. by rewrite Heq. Qed.
End search.

(** ** Ring states *)

Section invariants.
Context {Node : Type} `{CacheNode Node}.
Implicit Types ring : HashRing Node.

Lemma I1_elem ring :
  I1 ring ↔
  ∀ k, is_Some (nodes ring !! k) ↔
       ∃ v, v ∈ sortedKeyOfNodes ring ∧ k = Uint64 (uint64 v).
Proof.
  unfold I1, mapping_hashes, sequence_hashes. rewrite set_eq.
  apply forall_proper. intros k.
  rewrite elem_of_dom, elem_of_list_to_set, list_elem_of_fmap.
  assert ((∃ x, k = Uint64 (uint64 x) ∧ x ∈ sortedKeyOfNodes ring) ↔
          (∃ v, v ∈ sortedKeyOfNodes ring ∧ k = Uint64 (uint64 v))) as ->.
  { split; intros (v & ? & ?); eauto. }
  done.
Qed.

Lemma I2_sorted ring : I2 ring ↔ StronglySorted Z.lt (sortedKeyOfNodes ring).
Proof.
  unfold I2. split.
  - intros [Hnd Hs]. apply strictly_sorted; [|done].
    by apply Sorted_StronglySorted; [apply _|].
  - intros Hs. split; [by apply strictly_sorted_NoDup|].
    by apply StronglySorted_Sorted, strictly_sorted_le.
Qed.

(** *** What the calls return *)

Lemma AddNode_hashing ring node :
  generateHash ring (GetIdentifier node) = None →
  AddNode ring node =
    Call (Fail (Errorf ErrInHashingKey ("node " +:+ GetIdentifier node)))
      ring [].
Proof. intros Hh. unfold AddNode. by rewrite Hh. Qed.

Lemma AddNode_exists ring node h n' :
  generateHash ring (GetIdentifier node) = Some h →
  nodes ring !! Uint64 h = Some n' →
  AddNode ring node =
    Call (Fail (Errorf ErrNodeExits ("node " +:+ GetIdentifier node)))
      ring [].
Proof. intros Hh Hl. unfold AddNode. by rewrite Hh, Hl. Qed.

Lemma AddNode_fresh ring node h :
  generateHash ring (GetIdentifier node) = Some h →
  nodes ring !! Uint64 h = None →
  AddNode ring node =
    Call (Return ())
      {| config := config ring;
         nodes := <[Uint64 h := node]> (nodes ring);
         sortedKeyOfNodes :=
           slices.Sort (sortedKeyOfNodes ring ++ [int64 h]) |}
      (if EnableLogs (config ring)
       then [LogAdded (GetIdentifier node) h] else []).
Proof. intros Hh Hl. unfold AddNode. by rewrite Hh, Hl. Qed.

Lemma ring_eta ring :
  {| config := config ring; nodes := nodes ring;
     sortedKeyOfNodes := sortedKeyOfNodes ring |} = ring.
Proof. by destruct ring. Qed.

Lemma RemoveNode_hashing ring node :
  generateHash ring (GetIdentifier node) = None →
  RemoveNode ring node =
    Call (Fail (Errorf ErrInHashingKey (GetIdentifier node))) ring [].
Proof. intros Hh. unfold RemoveNode. by rewrite Hh. Qed.

Lemma RemoveNode_absent ring node h :
  generateHash ring (GetIdentifier node) = Some h →
  nodes ring !! Uint64 h = None →
  RemoveNode ring node =
    Call (Fail (Errorf ErrNodeNotFound (GetIdentifier node))) ring [].
Proof.
  intros Hh Hl. unfold RemoveNode. rewrite Hh. simpl. rewrite Hl.
  rewrite delete_id by done. by rewrite ring_eta.
Qed.

(** The stored hash of a registered node sits in the sequence. *)
Lemma registered_position ring h :
  consistent ring → is_uint64 h → is_Some (nodes ring !! Uint64 h) →
  ∃ ix : nat, sortedKeyOfNodes ring !! ix = Some (int64 h).
Proof.
  intros Hc Hh Hreg.
  apply (I1_elem ring) in Hreg as (v & Hv & Heq); [|apply Hc].
  simplify_eq. rewrite int64_uint64.
  - by apply list_elem_of_lookup.
  - eapply Forall_forall; [apply Hc | done].
Qed.

Lemma RemoveNode_present ring node h n' (ix : nat) :
  StronglySorted Z.lt (sortedKeyOfNodes ring) →
  generateHash ring (GetIdentifier node) = Some h →
  nodes ring !! Uint64 h = Some n' →
  sortedKeyOfNodes ring !! ix = Some (int64 h) →
  RemoveNode ring node =
    Call (Return ())
      {| config := config ring;
         nodes := delete (Uint64 h) (nodes ring);
         sortedKeyOfNodes := delete ix (sortedKeyOfNodes ring) |}
      (if EnableLogs (config ring)
       then [LogRemoved (GetIdentifier node) h] else []).
Proof.
  intros Hs Hh Hl Hix. unfold RemoveNode. rewrite Hh. simpl. rewrite Hl.
  rewrite binarySearch_nonempty; simpl; [|by intros Hnil; rewrite Hnil in Hix].
  assert (search_index (sortedKeyOfNodes ring) (int64 h) = ix) as ->.
  { unfold search_index. rewrite (lower_bound_lookup _ ix) by done.
    apply lookup_lt_Some in Hix. case_decide; [lia|done]. }
  apply lookup_lt_Some in Hix as Hlt. rewrite decide_True by done.
  by rewrite delete_take_drop.
Qed.
End invariants.

(** ** Deleting one position of a strictly ascending list *)

Lemma StronglySorted_delete {A} (R : relation A) (l : list A) (i : nat) :
  StronglySorted R l → StronglySorted R (delete i l).
Proof.
  intros Hl. revert i. induction Hl as [|a l Hl IH Ha]; intros [|i]; simpl;
    [constructor | constructor | done |].
  constructor; [apply IH | by apply Forall_delete].
Qed.

Lemma elem_of_delete_NoDup (l : list Z) (ix : nat) e x :
  NoDup l → l !! ix = Some e → x ∈ delete ix l ↔ x ∈ l ∧ x ≠ e.
Proof.
  intros Hnd Hix. rewrite delete_take_drop.
  pose proof (take_drop_middle l ix e Hix) as Hl.
  revert Hl. generalize (take ix l) (drop (S ix) l). intros l1 l2 <-.
  apply NoDup_app in Hnd as (_ & Hdisj & [Hnotin _]%NoDup_cons).
  rewrite !elem_of_app, elem_of_cons. split.
  - intros [Hx | Hx].
    + split; [by left|]. intros ->. apply (Hdisj e Hx). by left.
    + split; [by right; right|]. by intros ->.
  - intros [[Hx | [-> | Hx]] Hne]; [by left | done | by right].
Qed.

Section preservation.
Context {Node : Type} `{CacheNode Node}.
Implicit Types ring : HashRing Node.

Lemma consistent_init opts : consistent (HashRingInit (Node:=Node) opts).
Proof.
  split; simpl.
  - unfold I1, mapping_hashes, sequence_hashes. simpl. by rewrite dom_empty_L.
  - constructor.
  - constructor.
  - intros k node Hk. by rewrite lookup_empty in Hk.
Qed.

Lemma consistent_AddNode ring node :
  consistent ring → consistent (ring_after (AddNode ring node)).
Proof.
  intros Hc.
  destruct (generateHash ring (GetIdentifier node)) as [h|] eqn:Hh;
    [|by rewrite AddNode_hashing].
  destruct (nodes ring !! Uint64 h) as [n'|] eqn:Hl;
    [by erewrite AddNode_exists|].
  rewrite (AddNode_fresh ring node h) by done. simpl.
  pose proof (generateHash_uint64 _ _ _ Hh) as Hu.
  assert (int64 h ∉ sortedKeyOfNodes ring) as Hnew.
  { intros Hin. assert (is_Some (nodes ring !! Uint64 h)) as [? ?]; [|congruence].
    apply (I1_elem ring); [apply Hc|]. exists (int64 h).
    by rewrite uint64_int64. }
  split; simpl.
  - apply I1_elem. simpl. intros k. rewrite lookup_insert_is_Some'.
    rewrite (proj1 (I1_elem ring) (consistent_I1 _ Hc) k).
    split.
    + intros [<- | (v & Hv & ->)].
      * exists (int64 h). rewrite elem_of_slices_Sort, elem_of_app.
        rewrite uint64_int64 by done. split; [right; by left | done].
      * exists v. rewrite elem_of_slices_Sort, elem_of_app. auto.
    + intros (v & Hv & ->).
      rewrite elem_of_slices_Sort, elem_of_app in Hv.
      destruct Hv as [Hv | Hv%list_elem_of_singleton]; [right; eauto|].
      left. subst v. by rewrite uint64_int64.
  - apply strictly_sorted; [apply slices_Sort_sorted|].
    rewrite slices_Sort_perm. apply NoDup_app. split_and!.
    + apply strictly_sorted_NoDup, Hc.
    + intros x Hx ->%list_elem_of_singleton. done.
    + apply NoDup_singleton.
  - rewrite slices_Sort_perm. apply Forall_app. split; [apply Hc|].
    constructor; [apply int64_is_int64 | constructor].
  - intros k n Hk. apply lookup_insert_Some in Hk as [[<- <-] | [_ Hk]].
    + by exists h.
    + by apply (consistent_hash _ Hc) in Hk.
Qed.

Lemma consistent_RemoveNode ring node :
  consistent ring → consistent (ring_after (RemoveNode ring node)).
Proof.
  intros Hc.
  destruct (generateHash ring (GetIdentifier node)) as [h|] eqn:Hh;
    [|by rewrite RemoveNode_hashing].
  destruct (nodes ring !! Uint64 h) as [n'|] eqn:Hl;
    [|by erewrite RemoveNode_absent].
  pose proof (generateHash_uint64 _ _ _ Hh) as Hu.
  destruct (registered_position ring h) as [ix Hix]; [done | done | eauto |].
  rewrite (RemoveNode_present ring node h n' ix); [|apply Hc | done..].
  pose proof (strictly_sorted_NoDup _ (consistent_sorted _ Hc)) as Hnd.
  split; simpl.
  - apply I1_elem. simpl. intros k. rewrite lookup_delete_is_Some.
    rewrite (proj1 (I1_elem ring) (consistent_I1 _ Hc) k).
    split.
    + intros [Hne (v & Hv & ->)]. exists v. split; [|done].
      apply (elem_of_delete_NoDup _ ix (int64 h)); [done | done |].
      split; [done|]. intros ->. by rewrite uint64_int64 in Hne.
    + intros (v & Hv & ->).
      apply (elem_of_delete_NoDup _ ix (int64 h)) in Hv as [Hv Hne];
        [|done..].
      split; [|eauto]. intros [= Heq]. apply Hne.
      rewrite Heq. rewrite int64_uint64; [done|].
      eapply Forall_forall; [apply Hc | done].
  - apply StronglySorted_delete, Hc.
  - apply Forall_delete, Hc.
  - intros k n Hk. apply lookup_delete_Some in Hk as [_ Hk].
    by apply (consistent_hash _ Hc) in Hk.
Qed.

Lemma consistent_step ring o : consistent ring → consistent (step ring o).
Proof.
  destruct o; simpl; [apply consistent_AddNode | apply consistent_RemoveNode].
Qed.

Lemma reachable_consistent ring : reachable ring → consistent ring.
Proof.
  intros (opts & ops & ->). unfold run.
  generalize (consistent_init opts). generalize (HashRingInit (Node:=Node) opts).
  induction ops as [|o ops IH]; intros r Hr; simpl; [done|].
  by apply IH, consistent_step.
Qed.

End preservation.

(** ** [GetNode] *)

Section lookup.
Context {Node : Type} `{CacheNode Node}.
Implicit Types ring : HashRing Node.

Lemma consistenthash_GetNode_ring_after ring key :
  ring_after (consistenthash.GetNode ring key) = ring.
Proof. unfold consistenthash.GetNode. by repeat case_match. Qed.

Lemma hashring_GetNode_ring_after ring key :
  ring_after (hashring.GetNode ring key) = ring.
Proof. unfold hashring.GetNode. by repeat case_match. Qed.

Lemma GetNode_hashing ring key :
  generateHash ring key = None →
  consistenthash.GetNode ring key
    = Call (Fail (Errorf ErrInHashingKey key)) ring [] ∧
  hashring.GetNode ring key
    = Call (Fail (Errorf ErrInHashingKey key)) ring [].
Proof.
  intros Hh. unfold consistenthash.GetNode, hashring.GetNode.
  by rewrite Hh.
Qed.

Lemma GetNode_empty ring key h :
  generateHash ring key = Some h →
  sortedKeyOfNodes ring = [] →
  consistenthash.GetNode ring key
    = Call (Fail (Sentinel ErrNoConnectedNodes)) ring [] ∧
  hashring.GetNode ring key
    = Call (Fail (Sentinel ErrNoConnectedNodes)) ring [].
Proof.
  intros Hh Hl. unfold consistenthash.GetNode, hashring.GetNode.
  by rewrite Hh, binarySearch_empty.
Qed.

(** package [consistenthash]: the mapping holds [uint64] keys only, the
    lookup asks for an [int64] key. *)
Lemma consistenthash_GetNode_not_found ring key h :
  consistent ring →
  generateHash ring key = Some h →
  sortedKeyOfNodes ring ≠ [] →
  consistenthash.GetNode ring key
    = Call (Fail (Errorf ErrNodeNotFound ("no node found for key " +:+ key)))
        ring [].
Proof.
  intros Hc Hh Hl. unfold consistenthash.GetNode.
  rewrite Hh, binarySearch_nonempty by done.
  destruct (lookup_lt_is_Some_2 (sortedKeyOfNodes ring)
              (search_index (sortedKeyOfNodes ring) (int64 h))) as [s Hs].
  { by apply search_index_lt. }
  rewrite Hs.
  destruct (nodes ring !! Int64 s) as [node|] eqn:Hn; [|done].
  by apply (consistent_hash _ Hc) in Hn as (h' & ? & _).
Qed.

(** package [hashring]: the lookup asks for the [uint64] with the
    bits of the selected [int64]. *)
Lemma hashring_GetNode_found ring key h :
  (∀ v, v ∈ sortedKeyOfNodes ring →
        is_Some (nodes ring !! Uint64 (uint64 v))) →
  generateHash ring key = Some h →
  sortedKeyOfNodes ring ≠ [] →
  ∃ s node,
    sortedKeyOfNodes ring !! search_index (sortedKeyOfNodes ring) (int64 h)
      = Some s ∧
    nodes ring !! Uint64 (uint64 s) = Some node ∧
    hashring.GetNode ring key
      = Call (Return node) ring
          (if EnableLogs (config ring) then [LogMapped key h s] else []).
Proof.
  intros HI1 Hh Hl. unfold hashring.GetNode.
  rewrite Hh, binarySearch_nonempty by done.
  destruct (lookup_lt_is_Some_2 (sortedKeyOfNodes ring)
              (search_index (sortedKeyOfNodes ring) (int64 h))) as [s Hs].
  { by apply search_index_lt. }
  rewrite Hs.
  destruct (HI1 s) as [node Hn]; [by eapply list_elem_of_lookup_2|].
  rewrite Hn. by exists s, node.
Qed.

Lemma GetNode_never_panics ring key :
  res (consistenthash.GetNode ring key) ≠ Panic ∧
  res (hashring.GetNode ring key) ≠ Panic.
Proof.
  destruct (generateHash ring key) as [h|] eqn:Hh.
  - destruct (decide (sortedKeyOfNodes ring = [])) as [Hnil|Hne].
    + by destruct (GetNode_empty ring key h Hh Hnil) as [-> ->].
    + unfold consistenthash.GetNode, hashring.GetNode.
      rewrite Hh, binarySearch_nonempty by done.
      destruct (lookup_lt_is_Some_2 (sortedKeyOfNodes ring)
                  (search_index (sortedKeyOfNodes ring) (int64 h))) as [s Hs].
      { by apply search_index_lt. }
      rewrite Hs. by split; case_match.
  - by destruct (GetNode_hashing ring key Hh) as [-> ->].
Qed.

Lemma consistent_sequence_registered ring v :
  consistent ring → v ∈ sortedKeyOfNodes ring →
  is_Some (nodes ring !! Uint64 (uint64 v)).
Proof. intros Hc Hv. apply (I1_elem ring); [apply Hc | eauto]. Qed.

(** The number of registered nodes is the length of the sequence. *)
Lemma registered_count ring :
  consistent ring → size (nodes ring) = length (sortedKeyOfNodes ring).
Proof.
  intros Hc. rewrite <- size_dom.
  change (dom (nodes ring)) with (mapping_hashes ring).
  rewrite (consistent_I1 _ Hc). unfold sequence_hashes.
  rewrite size_list_to_set, length_fmap; [done|].
  apply NoDup_fmap_2_strong; [|apply strictly_sorted_NoDup, Hc].
  intros x y Hx Hy [= Heq].
  rewrite <- (int64_uint64 x), <- (int64_uint64 y), Heq; [done|..];
    eapply Forall_forall; try apply Hc; done.
Qed.
End lookup.

(** ** The ordered search after a removal *)

Lemma lower_bound_delete l (ix : nat) e key :
  StronglySorted Z.lt l → l !! ix = Some e →
  lower_bound (delete ix l) key
    = if decide (e < key) then pred (lower_bound l key) else lower_bound l key.
Proof.
  intros Hl Hix.
  pose proof (strictly_sorted_le l Hl) as Hle.
  destruct (lower_bound_spec l key Hle) as [Hlo Hhi].
  pose proof (lower_bound_le l key) as Hp.
  pose proof (lookup_lt_Some _ _ _ Hix) as Hlen.
  assert (length (delete ix l) = pred (length l)) as Hdl.
  { rewrite length_delete by eauto. lia. }
  apply lower_bound_unique.
  - by apply StronglySorted_delete.
  - case_decide as He; [|].
    + destruct (decide (ix < lower_bound l key)%nat); [lia|].
      specialize (Hhi ix e Hix). lia.
    + destruct (decide (lower_bound l key ≤ ix)%nat); [lia|].
      specialize (Hlo ix e Hix). lia.
  - intros i a Hi Hlt. rewrite list_lookup_delete in Hi.
    case_decide as He.
    + apply (Hlo _ _ Hi). case_decide; lia.
    + destruct (decide (lower_bound l key ≤ ix)%nat) as [Hpix|Hpix].
      * apply (Hlo _ _ Hi). case_decide; lia.
      * specialize (Hlo ix e Hix). lia.
  - intros i a Hi Hge. rewrite list_lookup_delete in Hi.
    case_decide as He.
    + destruct (decide (ix < lower_bound l key)%nat) as [Hpix|Hpix].
      * apply (Hhi _ _ Hi). case_decide; lia.
      * specialize (Hhi ix e Hix). lia.
    + destruct (decide (lower_bound l key ≤ ix)%nat) as [Hpix|Hpix].
      * apply (Hhi _ _ Hi). case_decide; lia.
      * specialize (Hlo ix e Hix). lia.
Qed.

(** Removing position [ix] from a strictly ascending list of at least two
    values: a search that did not select [ix] selects the same value, a
    search that selected [ix] selects the value at the next position,
    cyclically. *)
Lemma search_index_delete l (ix : nat) e key :
  StronglySorted Z.lt l → (2 ≤ length l)%nat → l !! ix = Some e →
  (search_index l key ≠ ix →
     delete ix l !! search_index (delete ix l) key = l !! search_index l key) ∧
  (search_index l key = ix →
     delete ix l !! search_index (delete ix l) key
       = l !! (S ix mod length l)%nat).
Proof.
  intros Hl Hn Hix.
  pose proof (strictly_sorted_le l Hl) as Hle.
  destruct (lower_bound_spec l key Hle) as [Hlo Hhi].
  pose proof (lower_bound_le l key) as Hp.
  pose proof (lookup_lt_Some _ _ _ Hix) as Hlen.
  assert (length (delete ix l) = pred (length l)) as Hdl.
  { rewrite length_delete by eauto. lia. }
  assert ((e < key → (ix < lower_bound l key)%nat) ∧
          (¬ e < key → (lower_bound l key ≤ ix)%nat)) as [Hlt Hge].
  { split; intros He.
    - destruct (decide (ix < lower_bound l key)%nat); [done|].
      specialize (Hhi ix e Hix). lia.
    - destruct (decide (lower_bound l key ≤ ix)%nat); [done|].
      specialize (Hlo ix e Hix). lia. }
  assert (S ix mod length l = if decide (S ix = length l) then 0 else S ix)%nat
    as Hmod.
  { case_decide as Hlast.
    - rewrite Hlast. apply Nat.Div0.mod_same.
    - apply Nat.mod_small. lia. }
  unfold search_index.
  rewrite (lower_bound_delete l ix e key Hl Hix), Hdl, Hmod.
  rewrite !list_lookup_delete.
  split; intros Hsel; f_equal;
    repeat case_decide; try specialize (Hlt ltac:(done));
    try specialize (Hge ltac:(done)); lia.
Qed.

(** * The properties of the specification *)

(** ** Successor selection and the mapping lookup (C1, C2) *)

Section successor.
Context {Node : Type} `{CacheNode Node}.
Implicit Types ring : HashRing Node.

(** Successor selection on package [hashring].  On a
    non-empty ring built through the interface, for a key that hashes to
    [h], [GetNode] returns the node stored at a hash [s] of the sequence
    that is the smallest at or after [int64 h], or the smallest of all
    when every stored hash is before [int64 h]. *)
Lemma hashring_GetNode_successor ring key h :
  reachable ring →
  sortedKeyOfNodes ring ≠ [] →
  generateHash ring key = Some h →
  ∃ s node,
    res (hashring.GetNode ring key) = Return node ∧
    nodes ring !! Uint64 (uint64 s) = Some node ∧
    ring_successor (sortedKeyOfNodes ring) (int64 h) s.
Proof.
  intros Hc%reachable_consistent Hne Hh.
  destruct (hashring_GetNode_found ring key h) as (s & node & Hs & Hn & Hget);
    [by intros v; apply consistent_sequence_registered | done | done |].
  exists s, node. rewrite Hget. split_and!; [done | done |].
  destruct (search_index_successor (sortedKeyOfNodes ring) (int64 h))
    as (s' & Hs' & Hsucc); [apply strictly_sorted_le, Hc | done |].
  congruence.
Qed.

(** The mapping lookup on package [hashring]: under I1 (every hash of the
    sequence is a key of the mapping) [GetNode] never returns
    [ErrNodeNotFound], and returns a node whenever the key hashes and the
    sequence is not empty. *)
Lemma hashring_GetNode_lookup_succeeds ring key :
  (∀ v, v ∈ sortedKeyOfNodes ring →
        is_Some (nodes ring !! Uint64 (uint64 v))) →
  ¬ failed (res (hashring.GetNode ring key)) ErrNodeNotFound ∧
  (is_Some (generateHash ring key) → sortedKeyOfNodes ring ≠ [] →
   ∃ node, res (hashring.GetNode ring key) = Return node).
Proof.
  intros HI1. destruct (generateHash ring key) as [h|] eqn:Hh.
  - destruct (decide (sortedKeyOfNodes ring = [])) as [Hnil|Hne].
    + destruct (GetNode_empty ring key h Hh Hnil) as [_ ->]. simpl.
      split; [|done]. by intros (err & [= <-] & [=]).
    + destruct (hashring_GetNode_found ring key h HI1 Hh Hne)
        as (s & node & _ & _ & ->). simpl.
      split; [|eauto]. by intros (err & [=] & _).
  - destruct (GetNode_hashing ring key Hh) as [_ ->]. simpl.
    split; [|by intros [? [=]]]. by intros (err & [= <-] & [=]).
Qed.

End successor.

Lemma uint64_of_int64 v :
  is_int64 v → uint64 v = if decide (v < 0) then v + 2 ^ 64 else v.
Proof.
  unfold is_int64, uint64. intros Hv. case_decide.
  - replace v with (v + 2 ^ 64 + (-1) * 2 ^ 64) at 1 by lia.
    rewrite Z.mod_add by lia. apply Z.mod_small. lia.
  - apply Z.mod_small. lia.
Qed.

(** The sequence is ordered as [int64], the hash function returns
    [uint64]: the [int64] order is the [uint64] order cut at another point
    of the circle, so the policy selects the same stored hash in both. *)
Lemma ring_successor_unsigned (l : list Z) key s :
  Forall is_int64 l → is_int64 key →
  ring_successor l key s →
  ring_successor (uint64 <$> l) (uint64 key) (uint64 s).
Proof.
  intros Hl Hkey [Hs Hcase]. rewrite Forall_forall in Hl.
  split; [by apply list_elem_of_fmap_2|].
  pose proof (Hl s Hs) as Hsr.
  rewrite (uint64_of_int64 key), (uint64_of_int64 s) by done.
  destruct Hcase as [[Hks Hmin] | [Hbefore Hmin]].
  - destruct (decide (key < 0)), (decide (s < 0));
      [left | right | unfold is_int64 in *; lia | left];
      (split; [try (unfold is_int64 in *; lia)|]);
      intros ? (t & -> & Ht)%list_elem_of_fmap;
      rewrite (uint64_of_int64 t) by auto;
      specialize (Hmin t Ht); specialize (Hl t Ht);
      unfold is_int64 in *; case_decide; lia.
  - pose proof (Hbefore s Hs).
    destruct (decide (key < 0)), (decide (s < 0));
      [right | unfold is_int64 in *; lia | left | right];
      (split; [try (unfold is_int64 in *; lia)|]);
      intros ? (t & -> & Ht)%list_elem_of_fmap;
      rewrite (uint64_of_int64 t) by auto;
      specialize (Hmin t Ht); specialize (Hbefore t Ht); specialize (Hl t Ht);
      unfold is_int64 in *; case_decide; lia.
Qed.

(** Successor selection in package [hashring], read on the [uint64]
    hashes: the node [GetNode] returns is stored at the smallest hash of
    the mapping at or after the hash of the key, or at the smallest hash
    of the mapping when all are before it. *)
Lemma hashring_GetNode_successor_uint64 {Node} `{CacheNode Node}
    (ring : HashRing Node) key h :
  reachable ring →
  sortedKeyOfNodes ring ≠ [] →
  generateHash ring key = Some h →
  ∃ u node,
    res (hashring.GetNode ring key) = Return node ∧
    nodes ring !! Uint64 u = Some node ∧
    ring_successor (uint64 <$> sortedKeyOfNodes ring) h u.
Proof.
  intros Hr Hne Hh.
  destruct (hashring_GetNode_successor ring key h Hr Hne Hh)
    as (s & node & Hget & Hn & Hsucc).
  exists (uint64 s), node. split_and!; [done | done |].
  rewrite <- (uint64_int64 h) at 1 by by eapply generateHash_uint64.
  apply ring_successor_unsigned; [|apply int64_is_int64 | done].
  by apply reachable_consistent.
Qed.

(** On every ring built through the interface, [GetNode] of
    package [consistenthash] returns no node. *)
Lemma consistenthash_GetNode_never_returns {Node} `{CacheNode Node}
    (ring : HashRing Node) key node :
  reachable ring → res (consistenthash.GetNode ring key) ≠ Return node.
Proof.
  intros Hc%reachable_consistent.
  destruct (generateHash ring key) as [h|] eqn:Hh.
  - destruct (decide (sortedKeyOfNodes ring = [])) as [Hnil|Hne].
    + by destruct (GetNode_empty ring key h Hh Hnil) as [-> _].
    + by rewrite (consistenthash_GetNode_not_found ring key h).
  - by destruct (GetNode_hashing ring key Hh) as [-> _].
Qed.

(** C1 — successor selection, which package [consistenthash] breaks:
    [GetNode] returns no node.  [TestAddNode],
    "add a single node": after [AddNode(node1)] on a fresh ring the ring
    holds one node, and [GetNode("test-key")] returns [ErrNodeNotFound]
    where the policy selects [node1]; [GetNode] of
    package [hashring] returns [node1]. *)
Example consistenthash_GetNode_single_node :
  let ring : HashRing mockNode := ring_after (AddNode (HashRingInit []) node1) in
  res (AddNode (HashRingInit []) node1) = Return () ∧
  size (nodes ring) = 1%nat ∧
  res (consistenthash.GetNode ring "test-key")
    = Fail (Errorf ErrNodeNotFound "no node found for key test-key") ∧
  res (hashring.GetNode ring "test-key") = Return node1.
Proof. by vm_compute. Qed.

(** C2 — the mapping lookup, which package [consistenthash] breaks:
    under I1 [GetNode] takes the [ErrNodeNotFound] branch.  [TestGetNode],
    "get node with multiple nodes": the ring built by adding [node1],
    [node2], [node3] satisfies I1, and [GetNode("key1")] takes the
    [ErrNodeNotFound] branch. *)
Example consistenthash_lookup_misses_under_I1 :
  let ring : HashRing mockNode := run [] [Add node1; Add node2; Add node3] in
  I1 ring ∧
  (∀ v, v ∈ sortedKeyOfNodes ring → is_Some (nodes ring !! Uint64 (uint64 v))) ∧
  res (consistenthash.GetNode ring "key1")
    = Fail (Errorf ErrNodeNotFound "no node found for key key1").
Proof.
  intros ring.
  assert (consistent ring) as Hc.
  { apply reachable_consistent. by eexists _, _. }
  split_and!.
  - apply Hc.
  - intros v Hv. by apply consistent_sequence_registered.
  - by vm_compute.
Qed.

(** ** Invariants (C3) *)

Section invariant_claim.
Context {Node : Type} `{CacheNode Node}.
Implicit Types ring : HashRing Node.

(** C3 — invariants.  After any sequence of [AddNode] and [RemoveNode]
    calls from [HashRingInit], successful or failed, the hash values of
    the mapping are those of the ordered sequence (I1) and the sequence
    has no duplicates and is sorted ascending (I2); [GetNode] returns the
    ring it was given, mapping and sequence unchanged. *)
Theorem ring_invariants :
  (∀ opts (ops : list op), I1 (run opts ops) ∧ I2 (run opts ops)) ∧
  (∀ ring key,
     ring_after (consistenthash.GetNode ring key) = ring ∧
     ring_after (hashring.GetNode ring key) = ring).
Proof.
  split.
  - intros opts ops.
    assert (consistent (run opts ops)) as Hc.
    { apply reachable_consistent. by exists opts, ops. }
    split; [apply Hc | apply I2_sorted, Hc].
  - intros ring key. split.
    + apply consistenthash_GetNode_ring_after.
    + apply hashring_GetNode_ring_after.
Qed.

End invariant_claim.

(** ** Minimal disruption (C4) *)

Section minimal_disruption.
Context {Node : Type} `{CacheNode Node}.
Implicit Types ring : HashRing Node.

(** C4 — minimal disruption.  On a ring built through the interface
    that holds at least two nodes, removing a registered node [x]
    succeeds, and for every key: a lookup that returned a node other
    than [x] returns the same node afterwards; a lookup that returned
    [x] returns afterwards the node stored at the position following
    [x]'s in the sequence, cyclically (x's successor on the ring); a
    lookup that failed fails with the same error.  This is [GetNode] of
    package [hashring]; the [GetNode] of package [consistenthash]
    gives the same result before and after. *)
Theorem RemoveNode_minimal_disruption ring (x : Node) (key : string) :
  reachable ring →
  (2 ≤ size (nodes ring))%nat →
  (∃ k, nodes ring !! k = Some x) →
  let ring' := ring_after (RemoveNode ring x) in
  res (RemoveNode ring x) = Return () ∧
  (∀ node,
     res (hashring.GetNode ring key) = Return node → node ≠ x →
     res (hashring.GetNode ring' key) = Return node) ∧
  (res (hashring.GetNode ring key) = Return x →
     ∃ (ix : nat) hx s succ,
       generateHash ring (GetIdentifier x) = Some hx ∧
       sortedKeyOfNodes ring !! ix = Some (int64 hx) ∧
       sortedKeyOfNodes ring
         !! (S ix mod length (sortedKeyOfNodes ring))%nat = Some s ∧
       nodes ring !! Uint64 (uint64 s) = Some succ ∧
       res (hashring.GetNode ring' key) = Return succ) ∧
  (∀ err,
     res (hashring.GetNode ring key) = Fail err →
     res (hashring.GetNode ring' key) = Fail err) ∧
  res (consistenthash.GetNode ring' key)
    = res (consistenthash.GetNode ring key).
Proof.
  intros Hc%reachable_consistent Hsize [k Hx] ring'.
  rewrite registered_count in Hsize by done.
  destruct (consistent_hash _ Hc _ _ Hx) as (hx & -> & Hhx).
  pose proof (generateHash_uint64 _ _ _ Hhx) as Hux.
  destruct (registered_position ring hx) as [ix Hix]; [done | done | eauto |].
  pose proof (consistent_RemoveNode ring x Hc) as Hc'. fold ring' in Hc'.
  pose proof (RemoveNode_present ring x hx x ix
                (consistent_sorted _ Hc) Hhx Hx Hix) as Hrm.
  assert (sortedKeyOfNodes ring'
            = delete ix (sortedKeyOfNodes ring)) as Hseq'.
  { unfold ring'. by rewrite Hrm. }
  assert (nodes ring' = delete (Uint64 hx) (nodes ring)) as Hnodes'.
  { unfold ring'. by rewrite Hrm. }
  assert (config ring' = config ring) as Hconfig'.
  { unfold ring'. by rewrite Hrm. }
  assert (sortedKeyOfNodes ring ≠ []) as Hne.
  { intros Hnil. rewrite Hnil in Hsize. simpl in Hsize. lia. }
  assert (sortedKeyOfNodes ring' ≠ []) as Hne'.
  { intros Hnil. apply (f_equal length) in Hnil.
    rewrite Hseq', length_delete in Hnil by eauto. simpl in Hnil. lia. }
  split; [by rewrite Hrm|].
  destruct (generateHash ring key) as [h|] eqn:Hh.
  - (* the key hashes *)
    assert (generateHash ring' key = Some h) as Hh'.
    { by rewrite (generateHash_eq ring' ring). }
    destruct (hashring_GetNode_found ring key h) as (s & node & Hs & Hn & Hget);
      [by intros v; apply consistent_sequence_registered | done | done |].
    destruct (hashring_GetNode_found ring' key h) as (s' & node' & Hs' & Hn' & Hget');
      [by intros v; apply consistent_sequence_registered | done | done |].
    rewrite Hget, Hget'. simpl.
    rewrite Hseq' in Hs'. rewrite Hnodes' in Hn'.
    apply lookup_delete_Some in Hn' as [Hne_key Hn'].
    destruct (search_index_delete (sortedKeyOfNodes ring) ix (int64 hx)
                (int64 h) (consistent_sorted _ Hc) Hsize Hix)
      as [Hother Hsame].
    assert (node = x ↔
            search_index (sortedKeyOfNodes ring) (int64 h) = ix) as Hnode.
    { split.
      - intros ->.
        destruct (consistent_hash _ Hc _ _ Hn) as (h' & [= Hk] & Hh'').
        assert (h' = hx) as -> by congruence.
        assert (s = int64 hx) as ->.
        { rewrite <- Hk. symmetry. apply int64_uint64.
          eapply Forall_forall; [apply Hc|]. by eapply list_elem_of_lookup_2. }
        eapply NoDup_lookup; [|done..].
        apply strictly_sorted_NoDup, Hc.
      - intros Hsel. rewrite Hsel, Hix in Hs. injection Hs as <-.
        rewrite uint64_int64 in Hn by done. congruence. }
    split_and!.
    + intros node0 [= <-] Hnx.
      rewrite Hother, Hs in Hs' by (by rewrite <- Hnode).
      injection Hs' as ->. congruence.
    + intros [= Hnx]. apply Hnode in Hnx as Hsel.
      rewrite (Hsame Hsel) in Hs'.
      exists ix, hx, s', node'. done.
    + intros err [=].
    + rewrite (consistenthash_GetNode_not_found ring key h),
        (consistenthash_GetNode_not_found ring' key h); done.
  - (* the key does not hash *)
    assert (generateHash ring' key = None) as Hh'.
    { by rewrite (generateHash_eq ring' ring). }
    destruct (GetNode_hashing ring key Hh) as [-> ->].
    destruct (GetNode_hashing ring' key Hh') as [-> ->]. simpl.
    split_and!; done.
Qed.

End minimal_disruption.

Lemma RemoveNode_minimal_disruption_witness :
  let ring : HashRing mockNode := run [] [Add node1; Add node2; Add node3] in
  let ring' := ring_after (RemoveNode ring node1) in
  reachable ring ∧ (2 ≤ size (nodes ring))%nat ∧
  res (RemoveNode ring node1) = Return () ∧
  res (hashring.GetNode ring "user:123") = Return node1 ∧
  (∃ (ix : nat) hx s succ,
     generateHash ring (GetIdentifier node1) = Some hx ∧
     sortedKeyOfNodes ring !! ix = Some (int64 hx) ∧
     sortedKeyOfNodes ring
       !! (S ix mod length (sortedKeyOfNodes ring))%nat = Some s ∧
     nodes ring !! Uint64 (uint64 s) = Some succ ∧
     res (hashring.GetNode ring' "user:123") = Return succ).
Proof.
  intros ring ring'.
  assert (reachable ring) as Hr by (by eexists _, _).
  assert (2 ≤ size (nodes ring))%nat as Hsize by (vm_compute; lia).
  assert (∃ k, nodes ring !! k = Some node1) as Hreg.
  { exists (Uint64 14577794042753658644). by vm_compute. }
  assert (res (hashring.GetNode ring "user:123") = Return node1) as Hget
    by (by vm_compute).
  split_and!; [done | done | | done |].
  - apply (RemoveNode_minimal_disruption ring node1 "user:123" Hr Hsize Hreg).
  - by apply (RemoveNode_minimal_disruption ring node1 "user:123" Hr Hsize Hreg).
Defined.

(** ** Failed calls (C5) *)

Section failed_calls.
Context {Node : Type} `{CacheNode Node}.
Implicit Types ring : HashRing Node.

(** C5 — no partial update.  [AddNode] on any ring, and [RemoveNode] on
    a ring built through the interface, never panic; when they return an
    error the ring after the call is the ring before it; when they
    succeed both structures are updated: the node is stored at a hash
    that was free and that hash joins the sequence, or the entry of the
    node's hash is deleted and that hash leaves the sequence. *)
Theorem failed_call_leaves_ring :
  (∀ ring node,
     let c := AddNode ring node in
     res c ≠ Panic ∧
     (∀ err, res c = Fail err → ring_after c = ring) ∧
     (res c = Return () →
        ∃ h, generateHash ring (GetIdentifier node) = Some h ∧
             nodes ring !! Uint64 h = None ∧
             nodes (ring_after c) = <[Uint64 h := node]> (nodes ring) ∧
             sortedKeyOfNodes (ring_after c)
               ≡ₚ int64 h :: sortedKeyOfNodes ring)) ∧
  (∀ ring node,
     reachable ring →
     let c := RemoveNode ring node in
     res c ≠ Panic ∧
     (∀ err, res c = Fail err → ring_after c = ring) ∧
     (res c = Return () →
        ∃ h, generateHash ring (GetIdentifier node) = Some h ∧
             is_Some (nodes ring !! Uint64 h) ∧
             nodes (ring_after c) = delete (Uint64 h) (nodes ring) ∧
             sortedKeyOfNodes ring
               ≡ₚ int64 h :: sortedKeyOfNodes (ring_after c))).
Proof.
  split.
  - intros ring node c. subst c.
    destruct (generateHash ring (GetIdentifier node)) as [h|] eqn:Hh;
      [|by rewrite AddNode_hashing].
    destruct (nodes ring !! Uint64 h) as [n'|] eqn:Hl;
      [by erewrite AddNode_exists|].
    rewrite (AddNode_fresh ring node h) by done. simpl.
    split_and!; [done | done |]. intros _. exists h. split_and!; try done.
    rewrite slices_Sort_perm. by rewrite Permutation_app_comm.
  - intros ring node Hc%reachable_consistent c. subst c.
    destruct (generateHash ring (GetIdentifier node)) as [h|] eqn:Hh;
      [|by rewrite RemoveNode_hashing].
    destruct (nodes ring !! Uint64 h) as [n'|] eqn:Hl;
      [|by erewrite RemoveNode_absent].
    pose proof (generateHash_uint64 _ _ _ Hh) as Hu.
    destruct (registered_position ring h) as [ix Hix]; [done | done | eauto |].
    rewrite (RemoveNode_present ring node h n' ix); [|apply Hc | done..].
    simpl. split_and!; [done | done |]. intros _. exists h.
    split_and!; [done | eauto | done |].
    rewrite delete_take_drop.
    rewrite <- (take_drop_middle _ _ _ Hix) at 1.
    by rewrite Permutation_middle.
Qed.

(** The hypothesis of C5 on [RemoveNode] is needed: on a ring that no
    sequence of calls builds, whose mapping holds an entry while its
    sequence is empty, [RemoveNode] deletes the entry and then fails in
    [binarySearch]. *)
Remark RemoveNode_on_inconsistent_ring (node : Node) h :
  let ring := {| config := {| HashFunction := fnv.New64a; EnableLogs := false |};
                 nodes := {[ Uint64 h := node ]};
                 sortedKeyOfNodes := [] |} in
  generateHash ring (GetIdentifier node) = Some h →
  RemoveNode ring node
    = Call (Fail (Sentinel ErrNoConnectedNodes))
        {| config := config ring; nodes := ∅; sortedKeyOfNodes := [] |} [].
Proof.
  intros ring Hh. unfold RemoveNode. rewrite Hh. simpl.
  rewrite lookup_singleton_eq. simpl. by rewrite delete_singleton_eq.
Qed.

End failed_calls.

Lemma failed_call_leaves_ring_witness :
  let ring : HashRing mockNode := run [] [Add node1] in
  reachable ring ∧
  ring_after (AddNode ring node1) = ring ∧
  ring_after (RemoveNode ring node2) = ring.
Proof.
  intros ring.
  assert (reachable ring) as Hr by (by eexists _, _).
  destruct (@failed_call_leaves_ring mockNode _) as [Hadd Hrm].
  split_and!; [done | |].
  - destruct (Hadd ring node1) as (_ & Hfail & _).
    apply (Hfail (Errorf ErrNodeExits "node node1")). by vm_compute.
  - destruct (Hrm ring node2 Hr) as (_ & Hfail & _).
    apply (Hfail (Errorf ErrNodeNotFound "node2")). by vm_compute.
Defined.

(** ** Emptiness (C6) *)

(** C6 — emptiness fails as stated on a ring whose hash function reports
    an error: the ring has no registered node, [GetNode] and [RemoveNode]
    return [ErrInHashingKey]. *)
Lemma empty_ring_hashing_error :
  let ring : HashRing mockNode := HashRingInit [SetHashFunction failingHash] in
  nodes ring = ∅ ∧ sortedKeyOfNodes ring = [] ∧
  res (consistenthash.GetNode ring "any-key")
    = Fail (Errorf ErrInHashingKey "any-key") ∧
  res (hashring.GetNode ring "any-key")
    = Fail (Errorf ErrInHashingKey "any-key") ∧
  res (RemoveNode ring node1) = Fail (Errorf ErrInHashingKey "node1") ∧
  ¬ failed (res (consistenthash.GetNode ring "any-key")) ErrNoConnectedNodes ∧
  ¬ failed (res (hashring.GetNode ring "any-key")) ErrNoConnectedNodes ∧
  ¬ failed (res (RemoveNode ring node1)) ErrNodeNotFound.
Proof.
  intros ring. split_and!; try done.
  - by intros (err & [= <-] & [=]).
  - by intros (err & [= <-] & [=]).
  - by intros (err & [= <-] & [=]).
Qed.

Section emptiness.
Context {Node : Type} `{CacheNode Node}.
Implicit Types ring : HashRing Node.

(** C6 — emptiness, as the code has it.  On a ring with no registered
    node, [GetNode] returns [ErrNoConnectedNodes] for every key the hash
    function consumes and [RemoveNode] returns [ErrNodeNotFound] for every
    node whose identifier it consumes; when the hash function reports an
    error both return [ErrInHashingKey]; the default hash function
    consumes every input. *)
Theorem empty_ring_errors ring :
  nodes ring = ∅ → sortedKeyOfNodes ring = [] →
  (∀ key,
     match generateHash ring key with
     | Some _ =>
         res (consistenthash.GetNode ring key)
           = Fail (Sentinel ErrNoConnectedNodes) ∧
         res (hashring.GetNode ring key)
           = Fail (Sentinel ErrNoConnectedNodes)
     | None =>
         res (consistenthash.GetNode ring key)
           = Fail (Errorf ErrInHashingKey key) ∧
         res (hashring.GetNode ring key)
           = Fail (Errorf ErrInHashingKey key)
     end) ∧
  (∀ node,
     match generateHash ring (GetIdentifier node) with
     | Some _ =>
         res (RemoveNode ring node)
           = Fail (Errorf ErrNodeNotFound (GetIdentifier node))
     | None =>
         res (RemoveNode ring node)
           = Fail (Errorf ErrInHashingKey (GetIdentifier node))
     end) ∧
  (HashFunction (config ring) = fnv.New64a →
     ∀ key, is_Some (generateHash ring key)).
Proof.
  intros Hnodes Hseq. split_and!.
  - intros key. destruct (generateHash ring key) as [h|] eqn:Hh.
    + by destruct (GetNode_empty ring key h Hh Hseq) as [-> ->].
    + by destruct (GetNode_hashing ring key Hh) as [-> ->].
  - intros node.
    destruct (generateHash ring (GetIdentifier node)) as [h|] eqn:Hh.
    + erewrite RemoveNode_absent; [done | done |].
      by rewrite Hnodes, lookup_empty.
    + by rewrite RemoveNode_hashing.
  - intros Hfnv key. unfold generateHash. rewrite Hfnv. simpl. eauto.
Qed.

End emptiness.

Lemma empty_ring_errors_witness :
  let ring : HashRing mockNode := HashRingInit [] in
  res (consistenthash.GetNode ring "any-key")
    = Fail (Sentinel ErrNoConnectedNodes) ∧
  res (hashring.GetNode ring "any-key") = Fail (Sentinel ErrNoConnectedNodes) ∧
  res (RemoveNode ring node1) = Fail (Errorf ErrNodeNotFound "node1").
Proof.
  intros ring.
  destruct (empty_ring_errors ring eq_refl eq_refl) as (Hget & Hrm & _).
  specialize (Hget "any-key"). specialize (Hrm node1).
  split_and!; [apply Hget | apply Hget | apply Hrm].
Defined.

(** ** Duplicate registration (C7) *)

Section duplicates.
Context {Node : Type} `{CacheNode Node}.
Implicit Types ring : HashRing Node.

(** C7 — duplicate registration.  [AddNode] fails with [ErrNodeExits]
    exactly when the hash of the node's identifier is a key of the
    mapping; after a successful [AddNode] of a node, adding any node whose
    identifier has the same hash (the same node included) fails with
    [ErrNodeExits]; and a call that fails so leaves the ring as it was,
    hence the number of registered nodes and the length of the sequence. *)
Theorem AddNode_hash_collision ring :
  (∀ node,
     failed (res (AddNode ring node)) ErrNodeExits ↔
     ∃ h, generateHash ring (GetIdentifier node) = Some h ∧
          is_Some (nodes ring !! Uint64 h)) ∧
  (∀ node1 node2 h,
     generateHash ring (GetIdentifier node1) = Some h →
     generateHash ring (GetIdentifier node2) = Some h →
     res (AddNode ring node1) = Return () →
     failed (res (AddNode (ring_after (AddNode ring node1)) node2))
       ErrNodeExits) ∧
  (∀ node,
     failed (res (AddNode ring node)) ErrNodeExits →
     ring_after (AddNode ring node) = ring ∧
     size (nodes (ring_after (AddNode ring node))) = size (nodes ring) ∧
     length (sortedKeyOfNodes (ring_after (AddNode ring node)))
       = length (sortedKeyOfNodes ring)).
Proof.
  assert (∀ node,
     failed (res (AddNode ring node)) ErrNodeExits ↔
     ∃ h, generateHash ring (GetIdentifier node) = Some h ∧
          is_Some (nodes ring !! Uint64 h)) as Hiff.
  { intros node.
    destruct (generateHash ring (GetIdentifier node)) as [h|] eqn:Hh.
    - destruct (nodes ring !! Uint64 h) as [n'|] eqn:Hl.
      + erewrite AddNode_exists by done. simpl. split.
        * intros _. exists h. eauto.
        * intros _. eexists. split; [done|done].
      + rewrite (AddNode_fresh ring node h) by done. simpl. split.
        * intros (err & [=] & _).
        * intros (h' & [= <-] & [? ?]). congruence.
    - rewrite AddNode_hashing by done. simpl. split.
      + intros (err & [= <-] & [=]).
      + intros (h' & [=] & _). }
  split_and!; [done | |].
  - intros node1 node2 h Hh1 Hh2 Hret.
    destruct (nodes ring !! Uint64 h) as [n'|] eqn:Hl.
    { erewrite AddNode_exists in Hret by done. done. }
    rewrite (AddNode_fresh ring node1 h) by done. simpl.
    erewrite AddNode_exists; [by eexists | |]; simpl.
    + by rewrite <- Hh2.
    + apply lookup_insert_eq.
  - intros node (h & Hh & [n' Hl])%Hiff.
    by erewrite AddNode_exists by done.
Qed.

End duplicates.

Lemma AddNode_hash_collision_witness :
  let ring : HashRing mockNode := HashRingInit [] in
  failed (res (AddNode (ring_after (AddNode ring node1)) node1)) ErrNodeExits.
Proof.
  intros ring.
  apply (proj1 (proj2 (AddNode_hash_collision ring)) node1 node1
           14577794042753658644); by vm_compute.
Defined.

(** ** Determinism (C8) *)

(** C8 — determinism fails as stated on a ring whose hash function hands
    out one hasher: the bytes of every key are written after those of the
    keys hashed before.  On the ring that holds [node1], [node2] and
    [node3], the first [GetNode("key1")] returns [node3] and leaves the
    ring as it was, the second returns [node2]. *)
Lemma shared_hasher_not_deterministic :
  let ring := three_nodes_shared.1 in
  let first := stateful.hashring.GetNode ring "key1" three_nodes_shared.2 in
  let second :=
    stateful.hashring.GetNode (stateful.ring_after first) "key1"
      (stateful.memory_after first) in
  stateful.ring_after first = ring ∧
  stateful.ring_after second = ring ∧
  stateful.res first = Return node3 ∧
  stateful.res second = Return node2 ∧
  stateful.res first ≠ stateful.res second.
Proof.
  intros ring first second.
  assert (stateful.res first = Return node3) as H1 by by vm_compute.
  assert (stateful.res second = Return node2) as H2 by by vm_compute.
  split_and!; [by vm_compute | by vm_compute | done | done |].
  rewrite H1, H2. by intros [=].
Qed.

Section determinism.
Context {Node : Type} `{CacheNode Node}.
Implicit Types ring : stateful.HashRing Node.
Implicit Types m : stateful.memory.

Lemma New_returns_new h : stateful.returns_new (stateful.New h) h.
Proof.
  intros m. by apply list_lookup_middle.
Qed.

Lemma stateful_binarySearch ring h key :
  stateful.binarySearch ring key = binarySearch (stateless h ring) key.
Proof. done. Qed.

(** With a hash function that returns new hashers, [generateHash] returns
    what the embedding above computes, in every memory. *)
Lemma generateHash_returns_new ring h key m :
  stateful.returns_new (stateful.HashFunction (stateful.config ring)) h →
  (stateful.generateHash ring key m).1
    = match generateHash (stateless h ring) key with
      | Some hashVal => stateful.Hash hashVal
      | None => stateful.HashErr
      end.
Proof.
  intros Hnew. specialize (Hnew m).
  unfold stateful.generateHash, generateHash. simpl.
  destruct (stateful.HashFunction (stateful.config ring) m) as [p m'].
  simpl in Hnew. rewrite Hnew.
  by destruct (hash.Write h (hash.New h) (String.list_byte_of_string key)).
Qed.

Lemma stateful_GetNode_ring_after ring key m :
  stateful.ring_after (stateful.consistenthash.GetNode ring key m) = ring ∧
  stateful.ring_after (stateful.hashring.GetNode ring key m) = ring.
Proof.
  unfold stateful.consistenthash.GetNode, stateful.hashring.GetNode.
  split; by repeat case_match.
Qed.

Lemma GetNode_returns_new ring h key m :
  stateful.returns_new (stateful.HashFunction (stateful.config ring)) h →
  stateful.res (stateful.consistenthash.GetNode ring key m)
    = res (consistenthash.GetNode (stateless h ring) key) ∧
  stateful.res (stateful.hashring.GetNode ring key m)
    = res (hashring.GetNode (stateless h ring) key).
Proof.
  intros Hnew.
  pose proof (generateHash_returns_new ring h key m Hnew) as Hhash.
  unfold stateful.consistenthash.GetNode, stateful.hashring.GetNode,
    consistenthash.GetNode, hashring.GetNode.
  destruct (stateful.generateHash ring key m) as [hashed m'].
  simpl in Hhash. subst hashed.
  destruct (generateHash (stateless h ring) key) as [hashVal|]; [|done].
  rewrite <- (stateful_binarySearch ring h).
  cbn [stateless sortedKeyOfNodes nodes config EnableLogs].
  split; by repeat case_match.
Qed.

(** C8 — determinism, as the code has it.  [GetNode] leaves the ring as
    it was, whatever the hash function.  When every call of the hash
    function returns a hasher in its initial state, as a constructor of
    hashers does: a call returns the same outcome in every memory, so two
    calls with the same key return the same node; and in a run of calls,
    one per key of a list, every call returns what the embedding above
    computes from the ring and its key alone, and the run leaves the
    ring as it was. *)
Theorem GetNode_deterministic ring :
  (∀ key m,
     stateful.ring_after (stateful.consistenthash.GetNode ring key m) = ring ∧
     stateful.ring_after (stateful.hashring.GetNode ring key m) = ring) ∧
  (∀ h,
     stateful.returns_new (stateful.HashFunction (stateful.config ring)) h →
     (∀ key m m',
        stateful.res (stateful.consistenthash.GetNode ring key m)
          = stateful.res (stateful.consistenthash.GetNode ring key m') ∧
        stateful.res (stateful.hashring.GetNode ring key m)
          = stateful.res (stateful.hashring.GetNode ring key m')) ∧
     (∀ keys m,
        (stateful.GetNodes stateful.consistenthash.GetNode ring keys m).1
          = ((λ key, res (consistenthash.GetNode (stateless h ring) key))
               <$> keys, ring) ∧
        (stateful.GetNodes stateful.hashring.GetNode ring keys m).1
          = ((λ key, res (hashring.GetNode (stateless h ring) key))
               <$> keys, ring))).
Proof.
  split; [apply stateful_GetNode_ring_after|].
  intros h Hnew. split.
  - intros key m m'.
    destruct (GetNode_returns_new ring h key m Hnew) as [-> ->].
    by destruct (GetNode_returns_new ring h key m' Hnew) as [-> ->].
  - intros keys. induction keys as [|key keys IH]; intros m; [done|].
    destruct (stateful_GetNode_ring_after ring key m) as [Hc Hh].
    destruct (GetNode_returns_new ring h key m Hnew) as [Hrc Hrh].
    cbn [stateful.GetNodes]. rewrite Hc, Hh, Hrc, Hrh. split.
    + destruct (IH (stateful.memory_after
                      (stateful.consistenthash.GetNode ring key m)))
        as [IHc _].
      destruct (stateful.GetNodes _ _ _ _) as [[results ring'] m'].
      simpl in IHc. by simplify_eq.
    + destruct (IH (stateful.memory_after
                      (stateful.hashring.GetNode ring key m)))
        as [_ IHh].
      destruct (stateful.GetNodes _ _ _ _) as [[results ring'] m'].
      simpl in IHh. by simplify_eq.
Qed.

End determinism.

Lemma GetNode_deterministic_witness :
  let ring := three_nodes_new.1 in
  stateful.HashFunction (stateful.config ring) = stateful.New fnv.New64a ∧
  (stateful.GetNodes stateful.hashring.GetNode ring
     ["key1"; "node2"; "key1"] three_nodes_new.2).1
    = ([Return node1; Return node2; Return node1], ring).
Proof.
  intros ring. split; [done|].
  destruct (GetNode_deterministic ring) as [_ Hdet].
  destruct (Hdet fnv.New64a (New_returns_new fnv.New64a)) as [_ Hrun].
  destruct (Hrun ["key1"; "node2"; "key1"] three_nodes_new.2) as [_ ->].
  reflexivity.
Defined.

(** ** The default hash function (C9) *)

Lemma sum64a_Write_FNV1a hash data :
  fnv.sum64a_Write hash data = FNV1a.hash_octets hash data.
Proof.
  unfold fnv.sum64a_Write. revert hash.
  induction data as [|c data IH]; intros hash; simpl; [done|].
  by rewrite IH.
Qed.

Lemma FNV1a_hash_octets_uint64 hash data :
  is_uint64 hash → is_uint64 (FNV1a.hash_octets hash data).
Proof.
  revert hash. induction data as [|c data IH]; intros hash Hh; simpl; [done|].
  apply IH. apply uint64_is_uint64.
Qed.

Section default_hash.
Context {Node : Type} `{CacheNode Node}.
Implicit Types ring : HashRing Node.

Lemma config_step ring (o : op) : config (step ring o) = config ring.
Proof.
  destruct o as [node|node]; simpl.
  - unfold AddNode. by repeat case_match.
  - unfold RemoveNode. by repeat case_match.
Qed.

Lemma config_run opts (ops : list op) :
  config (run opts ops) = config (HashRingInit (Node:=Node) opts).
Proof.
  unfold run. generalize (HashRingInit (Node:=Node) opts).
  induction ops as [|o ops IH]; intros ring; simpl; [done|].
  by rewrite IH, config_step.
Qed.

Lemma HashRingInit_default_hash opts :
  Forall (λ opt, ∃ enabled, opt = EnableVerboseLogs enabled) opts →
  HashFunction (config (HashRingInit (Node:=Node) opts)) = fnv.New64a.
Proof.
  unfold HashRingInit. simpl.
  assert (HashFunction {| HashFunction := fnv.New64a; EnableLogs := false |}
            = fnv.New64a) as Hstart by done.
  revert Hstart.
  generalize {| HashFunction := fnv.New64a; EnableLogs := false |}.
  induction opts as [|opt opts IH]; intros c Hc Hopts; simpl; [done|].
  apply Forall_cons in Hopts as [[enabled ->] Hopts].
  by apply IH.
Qed.

(** C9 — default hash.  On a ring constructed with no hash-function
    option (every option given is a logging option), after any sequence
    of calls, the hash of every node identifier and lookup key is the
    64-bit FNV-1a hash of the octets of the string, and hashing never
    reports an error. *)
Theorem default_hash_is_FNV1a opts (ops : list op) (key : string) :
  Forall (λ opt, ∃ enabled, opt = EnableVerboseLogs enabled) opts →
  generateHash (run opts ops) key = Some (FNV1a.hash64 key).
Proof.
  intros Hopts. unfold generateHash.
  rewrite config_run, (HashRingInit_default_hash opts Hopts). simpl.
  rewrite sum64a_Write_FNV1a. f_equal. unfold FNV1a.hash64.
  apply Z.mod_small. apply FNV1a_hash_octets_uint64. done.
Qed.

End default_hash.

Lemma default_hash_is_FNV1a_witness :
  generateHash (run (Node:=mockNode) [EnableVerboseLogs true] [Add node1]) "node1"
    = Some (FNV1a.hash64 "node1").
Proof.
  apply default_hash_is_FNV1a.
  constructor; [by exists true | constructor].
Defined.

(** The published test vectors of FNV-1a. *)
Example FNV1a_vectors :
  FNV1a.hash64 "" = 0xcbf29ce484222325 ∧
  FNV1a.hash64 "a" = 0xaf63dc4c8601ec8c ∧
  FNV1a.hash64 "foobar" = 0x85944171f73967e8.
Proof. by vm_compute. Qed.

(** The models of [fnv.New64a] and [fnv.New64] on the golden values of the
    tests of [hash/fnv]. *)
Example fnv_golden :
  let sum (h : hash.Hash64) (input : string) :=
    hash.Sum64 h <$> hash.Write h (hash.New h) (String.list_byte_of_string input) in
  sum fnv.New64a "a" = Some 0xaf63dc4c8601ec8c ∧
  sum fnv.New64a "ab" = Some 0x089c4407b545986a ∧
  sum fnv.New64a "abc" = Some 0xe71fa2190541574b ∧
  sum fnv.New64 "a" = Some 0xaf63bd4c8601b7be ∧
  sum fnv.New64 "ab" = Some 0x08326707b4eb37b8 ∧
  sum fnv.New64 "abc" = Some 0xd8dcca186bafadcb.
Proof. by vm_compute. Qed.

(** ** Logging (C10) *)

Section logging.
Context {Node : Type} `{CacheNode Node}.
Implicit Types ring : HashRing Node.

(** C10 — logging.  Setting the logging switch of a ring to any value
    changes neither what [AddNode], [GetNode] and [RemoveNode] return nor
    the ring they leave (which keeps the switch it was given). *)
Theorem logging_is_advisory ring (enabled : bool) :
  (∀ node,
     res (AddNode (with_logs enabled ring) node) = res (AddNode ring node) ∧
     ring_after (AddNode (with_logs enabled ring) node)
       = with_logs enabled (ring_after (AddNode ring node))) ∧
  (∀ key,
     res (consistenthash.GetNode (with_logs enabled ring) key)
       = res (consistenthash.GetNode ring key) ∧
     ring_after (consistenthash.GetNode (with_logs enabled ring) key)
       = with_logs enabled (ring_after (consistenthash.GetNode ring key))) ∧
  (∀ key,
     res (hashring.GetNode (with_logs enabled ring) key)
       = res (hashring.GetNode ring key) ∧
     ring_after (hashring.GetNode (with_logs enabled ring) key)
       = with_logs enabled (ring_after (hashring.GetNode ring key))) ∧
  (∀ node,
     res (RemoveNode (with_logs enabled ring) node)
       = res (RemoveNode ring node) ∧
     ring_after (RemoveNode (with_logs enabled ring) node)
       = with_logs enabled (ring_after (RemoveNode ring node))).
Proof.
  split_and!.
  - intros node. unfold AddNode, generateHash. simpl.
    by repeat case_match.
  - intros key. unfold consistenthash.GetNode, generateHash, binarySearch.
    simpl. by repeat case_match.
  - intros key. unfold hashring.GetNode, generateHash, binarySearch.
    simpl. by repeat case_match.
  - intros node. unfold RemoveNode, generateHash, binarySearch. simpl.
    by repeat case_match.
Qed.

(** The switch given at construction is the switch of the ring. *)
Lemma HashRingInit_with_logs opts (enabled : bool) :
  HashRingInit (opts ++ [EnableVerboseLogs enabled])
    = with_logs enabled (HashRingInit (Node:=Node) opts).
Proof. unfold HashRingInit, with_logs. by rewrite fold_left_app. Qed.

End logging.

(** * Further properties of the code *)

Section coverage.
Context {Node : Type} `{CacheNode Node}.
Implicit Types ring : HashRing Node.

Lemma ring_ext ring1 ring2 :
  config ring1 = config ring2 → nodes ring1 = nodes ring2 →
  sortedKeyOfNodes ring1 = sortedKeyOfNodes ring2 → ring1 = ring2.
Proof. destruct ring1, ring2. simpl. by intros -> -> ->. Qed.

Lemma binarySearch_Fail ring key err :
  binarySearch ring key = Fail err →
  err = Sentinel ErrNoConnectedNodes ∧ sortedKeyOfNodes ring = [].
Proof.
  unfold binarySearch. case_decide as Hlen; [|done].
  intros [= <-]. split; [done|]. by apply length_zero_iff_nil.
Qed.

(** Two rings built through the interface that hold the same mapping hold
    the same sequence. *)
Lemma consistent_sequence_unique ring1 ring2 :
  consistent ring1 → consistent ring2 → nodes ring1 = nodes ring2 →
  sortedKeyOfNodes ring1 = sortedKeyOfNodes ring2.
Proof.
  intros Hc1 Hc2 Hnodes.
  assert (∀ r1 r2 : HashRing Node,
    consistent r1 → consistent r2 → nodes r1 = nodes r2 →
    ∀ x, x ∈ sortedKeyOfNodes r1 → x ∈ sortedKeyOfNodes r2) as Hincl.
  { intros r1 r2 H1 H2 Heq x Hx.
    pose proof (consistent_sequence_registered r1 x H1 Hx) as Hreg.
    rewrite Heq in Hreg.
    apply (I1_elem r2) in Hreg as (v & Hv & [= Huv]); [|apply H2].
    assert (x = v) as ->; [|done].
    rewrite <- (int64_uint64 x), <- (int64_uint64 v), Huv; [done|..].
    - eapply Forall_forall; [apply H2 | done].
    - eapply Forall_forall; [apply H1 | done]. }
  apply (StronglySorted_unique Z.le).
  - apply strictly_sorted_le, Hc1.
  - apply strictly_sorted_le, Hc2.
  - apply NoDup_Permutation.
    + apply strictly_sorted_NoDup, Hc1.
    + apply strictly_sorted_NoDup, Hc2.
    + intros x. split; by apply Hincl.
Qed.

(** A node [GetNode] returns is one the mapping holds at a hash of the
    sequence. *)
Lemma hashring_GetNode_Return ring key node :
  res (hashring.GetNode ring key) = Return node →
  ∃ h s, generateHash ring key = Some h ∧
         sortedKeyOfNodes ring !! search_index (sortedKeyOfNodes ring) (int64 h)
           = Some s ∧
         nodes ring !! Uint64 (uint64 s) = Some node.
Proof.
  destruct (generateHash ring key) as [h|] eqn:Hh.
  - destruct (decide (sortedKeyOfNodes ring = [])) as [Hnil|Hne].
    + by destruct (GetNode_empty ring key h Hh Hnil) as [_ ->].
    + unfold hashring.GetNode. rewrite Hh, binarySearch_nonempty by done.
      destruct (sortedKeyOfNodes ring !! _) as [s|] eqn:Hs; [|done].
      destruct (nodes ring !! Uint64 (uint64 s)) as [n|] eqn:Hn; [|done].
      simpl. intros [= <-]. by exists h, s.
  - by destruct (GetNode_hashing ring key Hh) as [_ ->].
Qed.

(** On a ring built through the interface a node sits under one key. *)
Lemma consistent_key_unique ring k1 k2 x :
  consistent ring →
  nodes ring !! k1 = Some x → nodes ring !! k2 = Some x → k1 = k2.
Proof.
  intros Hc H1 H2.
  destruct (consistent_hash _ Hc _ _ H1) as (h1 & -> & Hh1).
  destruct (consistent_hash _ Hc _ _ H2) as (h2 & -> & Hh2).
  congruence.
Qed.

Lemma consistent_int64_elem ring v :
  consistent ring → v ∈ sortedKeyOfNodes ring → is_int64 v.
Proof. intros Hc Hv. eapply Forall_forall; [apply Hc | done]. Qed.

(** The position of a registered hash, found by the search. *)
Lemma registered_search_index ring h x :
  consistent ring → nodes ring !! Uint64 h = Some x →
  sortedKeyOfNodes ring !! search_index (sortedKeyOfNodes ring) (int64 h)
    = Some (int64 h).
Proof.
  intros Hc Hx.
  destruct (consistent_hash _ Hc _ _ Hx) as (h' & [= <-] & Hh).
  pose proof (generateHash_uint64 _ _ _ Hh) as Hu.
  destruct (registered_position ring h) as [ix Hix]; [done | done | eauto |].
  unfold search_index. rewrite (lower_bound_lookup _ ix) by (done || apply Hc).
  apply lookup_lt_Some in Hix as Hlt. case_decide; [lia | done].
Qed.

(** [binarySearch] on a sorted sequence: the leftmost position holding a
    value at or after [key], position 0 when every value is before [key],
    [ErrNoConnectedNodes] on the empty sequence; the index is in range. *)
Theorem binarySearch_leftmost ring key :
  StronglySorted Z.le (sortedKeyOfNodes ring) →
  match binarySearch ring key with
  | Return index =>
      (index < length (sortedKeyOfNodes ring))%nat ∧
      ((∃ v, sortedKeyOfNodes ring !! index = Some v ∧ key ≤ v ∧
             ∀ (j : nat) w, (j < index)%nat →
                            sortedKeyOfNodes ring !! j = Some w → w < key) ∨
       (index = 0%nat ∧ ∀ w, w ∈ sortedKeyOfNodes ring → w < key))
  | Fail err =>
      err = Sentinel ErrNoConnectedNodes ∧ sortedKeyOfNodes ring = []
  | Panic => False
  end.
Proof.
  intros Hs.
  destruct (decide (sortedKeyOfNodes ring = [])) as [Hnil|Hne].
  { by rewrite binarySearch_empty. }
  rewrite binarySearch_nonempty by done.
  pose proof (search_index_lt _ key Hne) as Hlt. split; [done|].
  destruct (lower_bound_spec _ key Hs) as [Hlo Hhi].
  pose proof (lower_bound_le (sortedKeyOfNodes ring) key) as Hle.
  unfold search_index in *. case_decide as Hwrap.
  - right. split; [done|]. intros w [j Hj]%list_elem_of_lookup.
    apply (Hlo j w Hj). apply lookup_lt_Some in Hj. lia.
  - left. destruct (lookup_lt_is_Some_2 _ _ Hlt) as [v Hv].
    exists v. split_and!; [done | by apply (Hhi _ _ Hv) |].
    intros j w Hj Hw. by apply (Hlo j w).
Qed.

(** [binarySearch] for the hash of a registered node, as [RemoveNode] calls
    it: on a ring built through the interface the search returns the
    position that holds this hash. *)
Theorem binarySearch_registered ring h x :
  reachable ring → nodes ring !! Uint64 h = Some x →
  ∃ index : nat,
    binarySearch ring (int64 h) = Return index ∧
    sortedKeyOfNodes ring !! index = Some (int64 h).
Proof.
  intros Hc%reachable_consistent Hx.
  pose proof (registered_search_index ring h x Hc Hx) as Hix.
  exists (search_index (sortedKeyOfNodes ring) (int64 h)). split; [|done].
  apply binarySearch_nonempty. intros Hnil. by rewrite Hnil in Hix.
Qed.

(** Index and slice expressions are in range, whatever the ring holds,
    also a sequence that is unsorted or out of step with the mapping: an
    index [binarySearch] returns is below the length of the sequence, so
    [sortedKeyOfNodes[index]] in [GetNode] and [sortedKeyOfNodes[:index]],
    [sortedKeyOfNodes[index+1:]] in [RemoveNode] do not panic. *)
Theorem index_and_slices_in_range ring node key :
  (∀ target index,
     binarySearch ring target = Return index →
     (index < length (sortedKeyOfNodes ring))%nat) ∧
  res (RemoveNode ring node) ≠ Panic ∧
  res (consistenthash.GetNode ring key) ≠ Panic ∧
  res (hashring.GetNode ring key) ≠ Panic.
Proof.
  split_and!.
  - intros target index Hsearch.
    destruct (decide (sortedKeyOfNodes ring = [])) as [Hnil|Hne].
    + by rewrite binarySearch_empty in Hsearch.
    + rewrite binarySearch_nonempty in Hsearch by done.
      injection Hsearch as <-. by apply search_index_lt.
  - unfold RemoveNode.
    destruct (generateHash ring (GetIdentifier node)) as [h|]; [|done].
    simpl. destruct (nodes ring !! Uint64 h); [|done].
    destruct (decide (sortedKeyOfNodes ring = [])) as [Hnil|Hne].
    + by rewrite binarySearch_empty.
    + rewrite binarySearch_nonempty by done. simpl.
      rewrite decide_True; [done|]. by apply search_index_lt.
  - apply GetNode_never_panics.
  - apply GetNode_never_panics.
Qed.

(** [GetNode] of package [hashring] selects the successor on the ring.  On
    a non-empty ring built through the interface, for a key that hashes to
    [h], it returns the node stored at a hash [s] of the sequence such
    that: in the [int64] order of the sequence, [s] is the smallest stored
    hash at or after [int64 h], or the smallest of all when every stored
    hash is before it; and, read as [uint64], [s] is the smallest stored
    hash at or after [h], or the smallest of all when every stored hash is
    before [h]. *)
Theorem hashring_GetNode_selects_successor ring key h :
  reachable ring →
  sortedKeyOfNodes ring ≠ [] →
  generateHash ring key = Some h →
  ∃ s node,
    res (hashring.GetNode ring key) = Return node ∧
    nodes ring !! Uint64 (uint64 s) = Some node ∧
    ring_successor (sortedKeyOfNodes ring) (int64 h) s ∧
    ring_successor (uint64 <$> sortedKeyOfNodes ring) h (uint64 s).
Proof.
  intros Hr Hne Hh.
  destruct (hashring_GetNode_successor ring key h Hr Hne Hh)
    as (s & node & Hget & Hn & Hsucc).
  exists s, node. split_and!; [done | done | done |].
  rewrite <- (uint64_int64 h) at 1 by by eapply generateHash_uint64.
  apply ring_successor_unsigned; [|apply int64_is_int64 | done].
  by apply reachable_consistent.
Qed.

(** [GetNode] of package [consistenthash], on a ring built through the
    interface, returns one of three errors and never a node:
    [ErrInHashingKey] when the key does not hash, [ErrNoConnectedNodes]
    on the empty ring, [ErrNodeNotFound] otherwise. *)
Theorem consistenthash_GetNode_outcomes ring key :
  reachable ring →
  res (consistenthash.GetNode ring key) =
    match generateHash ring key with
    | None => Fail (Errorf ErrInHashingKey key)
    | Some _ =>
        if decide (sortedKeyOfNodes ring = [])
        then Fail (Sentinel ErrNoConnectedNodes)
        else Fail (Errorf ErrNodeNotFound ("no node found for key " +:+ key))
    end.
Proof.
  intros Hc%reachable_consistent.
  destruct (generateHash ring key) as [h|] eqn:Hh.
  - case_decide as Hnil.
    + by destruct (GetNode_empty ring key h Hh Hnil) as [-> _].
    + by rewrite (consistenthash_GetNode_not_found ring key h).
  - by destruct (GetNode_hashing ring key Hh) as [-> _].
Qed.

Lemma hashring_GetNode_at_hash ring key h x :
  consistent ring →
  generateHash ring key = Some h → nodes ring !! Uint64 h = Some x →
  res (hashring.GetNode ring key) = Return x.
Proof.
  intros Hc Hh Hx.
  pose proof (registered_search_index ring h x Hc Hx) as Hix.
  destruct (hashring_GetNode_found ring key h) as (s & node & Hs & Hn & ->);
    [by intros v; apply consistent_sequence_registered | done | |].
  { intros Hnil. by rewrite Hnil in Hix. }
  simpl. rewrite Hix in Hs. injection Hs as <-.
  rewrite uint64_int64 in Hn by by eapply generateHash_uint64.
  congruence.
Qed.

(** Lookup after registration, package [hashring].  On a ring built
    through the interface, a key whose hash is the hash a node is stored
    under resolves to that node; in particular the identifier of a
    registered node resolves to the node. *)
Theorem hashring_GetNode_registered ring x :
  reachable ring →
  (∃ k, nodes ring !! k = Some x) →
  (∀ key h, generateHash ring key = Some h →
            nodes ring !! Uint64 h = Some x →
            res (hashring.GetNode ring key) = Return x) ∧
  res (hashring.GetNode ring (GetIdentifier x)) = Return x.
Proof.
  intros Hc%reachable_consistent [k Hk]. split.
  - intros key h. by apply hashring_GetNode_at_hash.
  - destruct (consistent_hash _ Hc _ _ Hk) as (h & -> & Hh).
    by apply (hashring_GetNode_at_hash _ _ h).
Qed.

(** A ring with one node, package [hashring]: every key that hashes
    resolves to that node. *)
Theorem hashring_GetNode_single_node ring x key :
  reachable ring →
  size (nodes ring) = 1%nat →
  (∃ k, nodes ring !! k = Some x) →
  is_Some (generateHash ring key) →
  res (hashring.GetNode ring key) = Return x.
Proof.
  intros Hc%reachable_consistent Hsize [k Hk] [h Hh].
  rewrite registered_count in Hsize by done.
  destruct (consistent_hash _ Hc _ _ Hk) as (hx & -> & Hhx).
  pose proof (registered_search_index ring hx x Hc Hk) as Hix.
  destruct (sortedKeyOfNodes ring) as [|e [|e' l]] eqn:Hseq;
    [done | | simpl in Hsize; lia].
  destruct (hashring_GetNode_found ring key h) as (s & node & Hs & Hn & ->);
    [by intros v; apply consistent_sequence_registered | done | by rewrite Hseq |].
  simpl. rewrite Hseq in Hs.
  apply list_elem_of_lookup_2, list_elem_of_singleton in Hs as ->.
  apply list_elem_of_lookup_2, list_elem_of_singleton in Hix as <-.
  rewrite uint64_int64 in Hn by by eapply generateHash_uint64.
  congruence.
Qed.

(** Removal is by hash.  On a ring built through the interface,
    [RemoveNode(y)] for any node [y] whose identifier hashes to the hash
    a node [x] is stored under succeeds: the entry of [x] leaves the
    mapping and its hash leaves the sequence, each shrinks by exactly one,
    and no lookup of package [hashring] returns [x] afterwards. *)
Theorem RemoveNode_removes ring (x y : Node) h :
  reachable ring →
  generateHash ring (GetIdentifier y) = Some h →
  nodes ring !! Uint64 h = Some x →
  let ring' := ring_after (RemoveNode ring y) in
  res (RemoveNode ring y) = Return () ∧
  nodes ring' = delete (Uint64 h) (nodes ring) ∧
  (int64 h ∉ sortedKeyOfNodes ring') ∧
  S (size (nodes ring')) = size (nodes ring) ∧
  S (length (sortedKeyOfNodes ring')) = length (sortedKeyOfNodes ring) ∧
  (∀ k, nodes ring' !! k ≠ Some x) ∧
  (∀ key, res (hashring.GetNode ring' key) ≠ Return x).
Proof.
  intros Hc%reachable_consistent Hh Hx ring'.
  pose proof (generateHash_uint64 _ _ _ Hh) as Hu.
  destruct (registered_position ring h) as [ix Hix]; [done | done | eauto |].
  pose proof (RemoveNode_present ring y h x ix
                (consistent_sorted _ Hc) Hh Hx Hix) as Hrm.
  pose proof (strictly_sorted_NoDup _ (consistent_sorted _ Hc)) as Hnd.
  assert (nodes ring' = delete (Uint64 h) (nodes ring)) as Hnodes'.
  { unfold ring'. by rewrite Hrm. }
  assert (sortedKeyOfNodes ring' = delete ix (sortedKeyOfNodes ring)) as Hseq'.
  { unfold ring'. by rewrite Hrm. }
  assert (∀ k, nodes ring' !! k ≠ Some x) as Hgone.
  { intros k Hk. rewrite Hnodes' in Hk.
    apply lookup_delete_Some in Hk as [Hne Hk].
    apply Hne. by apply (consistent_key_unique ring _ _ x). }
  split_and!; [by rewrite Hrm | done | | | | done |].
  - rewrite Hseq'. intros Hin.
    apply (elem_of_delete_NoDup _ ix (int64 h)) in Hin as [_ Hne]; done.
  - rewrite Hnodes', map_size_delete_Some by eauto.
    assert (size (nodes ring) ≠ 0%nat) as Hnz; [|lia].
    intros Hz%map_size_empty_inv. by rewrite Hz, lookup_empty in Hx.
  - rewrite Hseq', length_delete by eauto.
    apply lookup_lt_Some in Hix. lia.
  - intros key Hget.
    apply hashring_GetNode_Return in Hget as (hk & s & _ & _ & Hn).
    by apply (Hgone (Uint64 (uint64 s))).
Qed.

(** [RemoveNode] fails with [ErrNodeNotFound] exactly when the hash of the
    node's identifier is not a key of the mapping, on any ring, and the
    ring is then as it was; on a ring built through the interface it
    succeeds exactly when that hash is a key of the mapping. *)
Theorem RemoveNode_not_found ring node :
  (failed (res (RemoveNode ring node)) ErrNodeNotFound ↔
   ∃ h, generateHash ring (GetIdentifier node) = Some h ∧
        nodes ring !! Uint64 h = None) ∧
  (failed (res (RemoveNode ring node)) ErrNodeNotFound →
   ring_after (RemoveNode ring node) = ring) ∧
  (reachable ring →
   (res (RemoveNode ring node) = Return () ↔
    ∃ h, generateHash ring (GetIdentifier node) = Some h ∧
         is_Some (nodes ring !! Uint64 h))).
Proof.
  destruct (generateHash ring (GetIdentifier node)) as [h|] eqn:Hh.
  - destruct (nodes ring !! Uint64 h) as [x|] eqn:Hx.
    + assert (¬ failed (res (RemoveNode ring node)) ErrNodeNotFound) as Hnot.
      { unfold RemoveNode. rewrite Hh. simpl. rewrite Hx.
        destruct (binarySearch _ _) as [index|err|] eqn:Hbs; simpl.
        - case_decide; simpl; by intros (e & [=] & _).
        - apply binarySearch_Fail in Hbs as [-> _].
          by intros (e & [= <-] & [=]).
        - by intros (e & [=] & _). }
      split_and!.
      * split; [done|]. intros (h' & [= <-] & Hnone). congruence.
      * done.
      * intros Hc%reachable_consistent.
        pose proof (generateHash_uint64 _ _ _ Hh) as Hu.
        destruct (registered_position ring h) as [ix Hix];
          [done | done | eauto |].
        rewrite (RemoveNode_present ring node h x ix); [|apply Hc | done..].
        simpl. split; [|done]. intros _. exists h. eauto.
    + rewrite (RemoveNode_absent ring node h) by done. simpl. split_and!.
      * split; [intros _; by exists h|]. intros _. by eexists.
      * done.
      * intros _. split; [done|]. intros (h' & [= <-] & [? ?]). congruence.
  - rewrite RemoveNode_hashing by done. simpl. split_and!.
    + split; [by intros (e & [= <-] & [=]) | by intros (h' & [=] & _)].
    + done.
    + intros _. split; [done | by intros (h' & [=] & _)].
Qed.

(** The sequence is a function of the mapping: two rings built through
    the interface that hold the same mapping hold the same sequence, in
    whatever order their nodes were added and removed. *)
Theorem sequence_determined_by_mapping ring1 ring2 :
  reachable ring1 → reachable ring2 →
  nodes ring1 = nodes ring2 →
  sortedKeyOfNodes ring1 = sortedKeyOfNodes ring2.
Proof.
  intros Hc1%reachable_consistent Hc2%reachable_consistent.
  by apply consistent_sequence_unique.
Qed.

(** What a successful [AddNode] leaves, from the ring and the hash. *)
Lemma AddNode_Return ring node :
  res (AddNode ring node) = Return () →
  ∃ h, generateHash ring (GetIdentifier node) = Some h ∧
       nodes ring !! Uint64 h = None ∧
       ring_after (AddNode ring node) =
         {| config := config ring;
            nodes := <[Uint64 h := node]> (nodes ring);
            sortedKeyOfNodes :=
              slices.Sort (sortedKeyOfNodes ring ++ [int64 h]) |}.
Proof.
  destruct (generateHash ring (GetIdentifier node)) as [h|] eqn:Hh;
    [|by rewrite AddNode_hashing].
  destruct (nodes ring !! Uint64 h) as [n'|] eqn:Hl;
    [by erewrite AddNode_exists|].
  rewrite (AddNode_fresh ring node h) by done. simpl. intros _. by exists h.
Qed.

(** [AddNode] then [RemoveNode] of the same node, on a ring built through
    the interface: when the add succeeds the remove succeeds and the ring
    is the one before the add, mapping and sequence. *)
Theorem AddNode_RemoveNode ring node :
  reachable ring →
  res (AddNode ring node) = Return () →
  res (RemoveNode (ring_after (AddNode ring node)) node) = Return () ∧
  ring_after (RemoveNode (ring_after (AddNode ring node)) node) = ring.
Proof.
  intros Hc%reachable_consistent Hadd.
  pose proof (consistent_AddNode ring node Hc) as Hc1.
  pose proof (consistent_RemoveNode (ring_after (AddNode ring node)) node Hc1)
    as Hc2.
  destruct (AddNode_Return ring node Hadd) as (h & Hh & Hfresh & Hring1).
  revert Hc1 Hc2. rewrite Hring1. set (ring1 := {| config := config ring |}).
  intros Hc1 Hc2.
  assert (generateHash ring1 (GetIdentifier node) = Some h) as Hh1 by done.
  assert (nodes ring1 !! Uint64 h = Some node) as Hx1.
  { apply lookup_insert_eq. }
  pose proof (generateHash_uint64 _ _ _ Hh) as Hu.
  destruct (registered_position ring1 h) as [ix Hix]; [done | done | eauto |].
  pose proof (RemoveNode_present ring1 node h node ix
                (consistent_sorted _ Hc1) Hh1 Hx1 Hix) as Hrm.
  split; [by rewrite Hrm|].
  assert (nodes (ring_after (RemoveNode ring1 node)) = nodes ring) as Hnodes.
  { rewrite Hrm. simpl. by apply delete_insert_id. }
  apply ring_ext.
  - by rewrite Hrm.
  - done.
  - by apply consistent_sequence_unique.
Qed.

(** [RemoveNode] then [AddNode] of a registered node, on a ring built
    through the interface: both succeed and the ring is the one before
    the removal. *)
Theorem RemoveNode_AddNode ring x :
  reachable ring →
  (∃ k, nodes ring !! k = Some x) →
  res (RemoveNode ring x) = Return () ∧
  res (AddNode (ring_after (RemoveNode ring x)) x) = Return () ∧
  ring_after (AddNode (ring_after (RemoveNode ring x)) x) = ring.
Proof.
  intros Hc%reachable_consistent [k Hk].
  destruct (consistent_hash _ Hc _ _ Hk) as (h & -> & Hh).
  pose proof (generateHash_uint64 _ _ _ Hh) as Hu.
  destruct (registered_position ring h) as [ix Hix]; [done | done | eauto |].
  pose proof (consistent_RemoveNode ring x Hc) as Hc1.
  pose proof (consistent_AddNode (ring_after (RemoveNode ring x)) x Hc1) as Hc2.
  revert Hc1 Hc2.
  rewrite (RemoveNode_present ring x h x ix (consistent_sorted _ Hc) Hh Hk Hix).
  simpl. set (ring1 := {| config := config ring |}). intros Hc1 Hc2.
  assert (generateHash ring1 (GetIdentifier x) = Some h) as Hh1 by done.
  assert (nodes ring1 !! Uint64 h = None) as Hx1 by apply lookup_delete_eq.
  revert Hc2. rewrite (AddNode_fresh ring1 x h Hh1 Hx1). simpl. intros Hc2.
  split_and!; [done | done |].
  apply ring_ext; simpl.
  - done.
  - by apply insert_delete_id.
  - apply (consistent_sequence_unique _ ring Hc2 Hc). simpl.
    by apply insert_delete_id.
Qed.

Lemma AddNode_same_config ring ring' node :
  config ring' = config ring →
  (∀ h, generateHash ring (GetIdentifier node) = Some h →
        nodes ring' !! Uint64 h = nodes ring !! Uint64 h) →
  res (AddNode ring' node) = res (AddNode ring node).
Proof.
  intros Hcfg Hlook. unfold AddNode.
  rewrite (generateHash_eq ring' ring) by done.
  destruct (generateHash ring (GetIdentifier node)) as [h|]; [|done].
  rewrite (Hlook h) by done. by destruct (nodes ring !! Uint64 h).
Qed.

Lemma AddNode_other_hash ring a h :
  generateHash ring (GetIdentifier a) ≠ Some h →
  config (ring_after (AddNode ring a)) = config ring ∧
  nodes (ring_after (AddNode ring a)) !! Uint64 h = nodes ring !! Uint64 h.
Proof.
  intros Hne. unfold AddNode.
  destruct (generateHash ring (GetIdentifier a)) as [ha|] eqn:Ha; [|done].
  destruct (nodes ring !! Uint64 ha); [done|]. simpl. split; [done|].
  apply lookup_insert_ne. congruence.
Qed.

(** [AddNode] calls commute.  For two nodes whose identifiers hash
    differently, on any ring, adding them in either order leaves the same
    ring, and each call returns what it returns on the ring alone. *)
Theorem AddNode_commute ring n1 n2 :
  generateHash ring (GetIdentifier n1) ≠ generateHash ring (GetIdentifier n2) →
  ring_after (AddNode (ring_after (AddNode ring n1)) n2)
    = ring_after (AddNode (ring_after (AddNode ring n2)) n1) ∧
  res (AddNode (ring_after (AddNode ring n2)) n1) = res (AddNode ring n1) ∧
  res (AddNode (ring_after (AddNode ring n1)) n2) = res (AddNode ring n2).
Proof.
  intros Hne. split_and!.
  - destruct (generateHash ring (GetIdentifier n1)) as [h1|] eqn:H1,
      (generateHash ring (GetIdentifier n2)) as [h2|] eqn:H2; [|..|done].
    + assert (Uint64 h1 ≠ Uint64 h2) as Hk by congruence.
      destruct (nodes ring !! Uint64 h1) as [x1|] eqn:Hx1,
        (nodes ring !! Uint64 h2) as [x2|] eqn:Hx2.
      * pose proof (AddNode_exists ring n1 h1 x1 H1 Hx1) as E1.
        pose proof (AddNode_exists ring n2 h2 x2 H2 Hx2) as E2.
        repeat (first [rewrite E1 | rewrite E2]; cbn [ring_after]). done.
      * pose proof (AddNode_exists ring n1 h1 x1 H1 Hx1) as E1.
        pose proof (AddNode_fresh ring n2 h2 H2 Hx2) as E2.
        rewrite E1. cbn [ring_after]. rewrite !E2. cbn [ring_after].
        erewrite (AddNode_exists _ n1 h1 x1); [done | done |]. simpl.
        by rewrite lookup_insert_ne.
      * pose proof (AddNode_fresh ring n1 h1 H1 Hx1) as E1.
        pose proof (AddNode_exists ring n2 h2 x2 H2 Hx2) as E2.
        rewrite E2. cbn [ring_after]. rewrite !E1. cbn [ring_after].
        erewrite (AddNode_exists _ n2 h2 x2); [done | done |]. simpl.
        by rewrite lookup_insert_ne.
      * pose proof (AddNode_fresh ring n1 h1 H1 Hx1) as E1.
        pose proof (AddNode_fresh ring n2 h2 H2 Hx2) as E2.
        rewrite E1, E2. cbn [ring_after].
        rewrite (AddNode_fresh _ n2 h2), (AddNode_fresh _ n1 h1);
          [|done | by simpl; rewrite lookup_insert_ne
            |done | by simpl; rewrite lookup_insert_ne].
        simpl. f_equal.
        -- by apply insert_insert_ne.
        -- symmetry. apply slices_Sort_unique; [apply slices_Sort_sorted|].
           rewrite !slices_Sort_perm, <- !app_assoc.
           apply Permutation_app_head, Permutation_swap.
    + pose proof (AddNode_hashing ring n2 H2) as E2.
      pose proof (config_step ring (Add n1)) as Hcfg. simpl in Hcfg.
      rewrite (AddNode_hashing _ n2) by by rewrite (generateHash_eq _ ring).
      by rewrite E2.
    + pose proof (AddNode_hashing ring n1 H1) as E1.
      pose proof (config_step ring (Add n2)) as Hcfg. simpl in Hcfg.
      rewrite (AddNode_hashing (ring_after _) n1)
        by by rewrite (generateHash_eq _ ring).
      by rewrite E1.
  - apply AddNode_same_config.
    + apply (config_step ring (Add n2)).
    + intros h Hh. apply AddNode_other_hash. congruence.
  - apply AddNode_same_config.
    + apply (config_step ring (Add n1)).
    + intros h Hh. apply AddNode_other_hash. congruence.
Qed.

Lemma delete_slices_Sort (l : list Z) e (ix : nat) :
  StronglySorted Z.lt l →
  slices.Sort (l ++ [e]) !! ix = Some e →
  delete ix (slices.Sort (l ++ [e])) = l.
Proof.
  intros Hl Hix. apply (StronglySorted_unique Z.le).
  - apply StronglySorted_delete, slices_Sort_sorted.
  - by apply strictly_sorted_le.
  - apply (Permutation_cons_inv (a:=e)).
    rewrite <- (delete_Permutation _ _ _ Hix), slices_Sort_perm.
    by rewrite Permutation_app_comm.
Qed.

(** Adding a node takes keys only for the new node, package [hashring].
    On a ring built through the interface, after a successful
    [AddNode(n)] every key resolves to [n] or to the node it resolved to
    before; a key that resolved to a node before still resolves, to that
    node or to [n]. *)
Theorem AddNode_moves_keys_to_new_node ring n key :
  reachable ring →
  res (AddNode ring n) = Return () →
  let ring' := ring_after (AddNode ring n) in
  (∀ node, res (hashring.GetNode ring' key) = Return node →
           node = n ∨ res (hashring.GetNode ring key) = Return node) ∧
  (∀ node, res (hashring.GetNode ring key) = Return node →
           res (hashring.GetNode ring' key) = Return node ∨
           res (hashring.GetNode ring' key) = Return n).
Proof.
  intros Hc%reachable_consistent Hadd ring'.
  pose proof (consistent_AddNode ring n Hc) as Hc1. fold ring' in Hc1.
  destruct (AddNode_Return ring n Hadd) as (h & Hh & Hfresh & Hring1).
  fold ring' in Hring1.
  pose proof (generateHash_uint64 _ _ _ Hh) as Hu.
  assert (nodes ring' = <[Uint64 h := n]> (nodes ring)) as Hnodes'
    by by rewrite Hring1.
  assert (sortedKeyOfNodes ring'
            = slices.Sort (sortedKeyOfNodes ring ++ [int64 h])) as Hseq'
    by by rewrite Hring1.
  assert (∀ k, generateHash ring' k = generateHash ring k) as Hgen.
  { intros k. apply generateHash_eq. by rewrite Hring1. }
  assert (∀ node, res (hashring.GetNode ring' key) = Return node →
           node = n ∨ res (hashring.GetNode ring key) = Return node) as Hfirst.
  { intros node
      (hk & s' & Hhk & Hs' & Hn')%hashring_GetNode_Return.
    rewrite Hgen in Hhk.
    destruct (decide (s' = int64 h)) as [->|Hne].
    { left. rewrite uint64_int64, Hnodes', lookup_insert_eq in Hn' by done.
      congruence. }
    right.
    destruct (registered_position ring' h) as [ix Hix]; [done | done | |].
    { rewrite Hnodes'. rewrite lookup_insert_eq. eauto. }
    assert (s' ∈ sortedKeyOfNodes ring) as Hin.
    { apply list_elem_of_lookup_2 in Hs'.
      rewrite Hseq', elem_of_slices_Sort, elem_of_app in Hs'.
      destruct Hs' as [?|?%list_elem_of_singleton]; done. }
    assert (delete ix (sortedKeyOfNodes ring') = sortedKeyOfNodes ring) as Hdel.
    { rewrite Hseq' in Hix |- *. apply delete_slices_Sort; [apply Hc | done]. }
    destruct (search_index_delete (sortedKeyOfNodes ring') ix (int64 h)
                (int64 hk) (consistent_sorted _ Hc1)) as [Hother _]; [|done|].
    { rewrite Hseq'. rewrite (Permutation_length (slices_Sort_perm _)).
      rewrite length_app. simpl. destruct (sortedKeyOfNodes ring); [|simpl; lia].
      by apply elem_of_nil in Hin. }
    rewrite Hdel, Hs' in Hother.
    destruct (hashring_GetNode_found ring key hk) as (s & node0 & Hs & Hn & ->);
      [by intros v; apply consistent_sequence_registered | done | |].
    { intros Hnil. rewrite Hnil in Hin. by apply elem_of_nil in Hin. }
    simpl.
    assert (search_index (sortedKeyOfNodes ring') (int64 hk) ≠ ix) as Hsel.
    { intros Heq. rewrite Heq, Hix in Hs'. congruence. }
    rewrite (Hother Hsel) in Hs. injection Hs as <-.
    rewrite Hnodes', lookup_insert_ne in Hn'; [congruence|].
    intros [= Heq]. apply Hne. rewrite Heq. symmetry. apply int64_uint64.
    by apply (consistent_int64_elem ring). }
  split; [done|].
  intros node Hget.
  destruct (hashring_GetNode_Return ring key node Hget)
    as (hk & s & Hhk & Hs & Hn).
  destruct (hashring_GetNode_found ring' key hk) as (s' & node' & _ & _ & Hget');
    [by intros v; apply consistent_sequence_registered | by rewrite Hgen | |].
  { rewrite Hseq'. intros Hnil. apply (f_equal length) in Hnil.
    rewrite (Permutation_length (slices_Sort_perm _)), length_app in Hnil.
    simpl in Hnil. lia. }
  destruct (Hfirst node') as [-> | Hsame]; [by rewrite Hget' | |].
  - right. by rewrite Hget'.
  - left. rewrite Hget'. simpl. congruence.
Qed.

(** Adding nodes one after the other, each to a free hash. *)
Lemma adds_fresh (g : string → option Z) (ns : list Node) : ∀ ring,
  consistent ring →
  (∀ key, generateHash ring key = g key) →
  NoDup ((λ n, g (GetIdentifier n)) <$> ns) →
  Forall (λ n, ∃ h, g (GetIdentifier n) = Some h ∧
                    nodes ring !! Uint64 h = None) ns →
  let ring' := fold_left step (Add <$> ns) ring in
  consistent ring' ∧
  (∀ key, generateHash ring' key = g key) ∧
  length (sortedKeyOfNodes ring')
    = (length (sortedKeyOfNodes ring) + length ns)%nat ∧
  (∀ n, n ∈ ns →
        ∃ h, g (GetIdentifier n) = Some h ∧ nodes ring' !! Uint64 h = Some n) ∧
  (∀ k v, nodes ring !! k = Some v → nodes ring' !! k = Some v).
Proof.
  induction ns as [|n ns IH]; intros ring Hc Hg Hnd Hfresh.
  { simpl. split_and!; [done | done | lia | | done].
    by intros n ?%elem_of_nil. }
  rewrite fmap_cons. cbn [fold_left step length]. simpl in Hnd.
  apply NoDup_cons in Hnd as [Hnotin Hnd].
  apply Forall_cons in Hfresh as [(h & Hh & Hnone) Hfresh].
  pose proof (consistent_AddNode ring n Hc) as Hc1. revert Hc1.
  rewrite (AddNode_fresh ring n h); [|by rewrite Hg | done].
  cbn [ring_after]. set (ring1 := {| config := config ring |}). intros Hc1.
  destruct (IH ring1) as (Hc' & Hg' & Hlen & Hreg & Hkeep); [done | done | done | |].
  { eapply Forall_impl; [apply Forall_and; split; [apply Hfresh|]|].
    - apply Forall_forall. intros n' Hn'. exact Hn'.
    - simpl. intros n' [(h' & Hh' & Hnone') Hn']. exists h'. split; [done|].
      simpl. rewrite lookup_insert_ne; [done|]. intros [= <-].
      apply Hnotin. apply list_elem_of_fmap. exists n'. split; [congruence|done]. }
  split_and!; [done | done | | |].
  - rewrite Hlen. simpl.
    rewrite (Permutation_length (slices_Sort_perm _)), length_app. simpl. lia.
  - intros n' [->|Hn']%elem_of_cons; [|by apply Hreg].
    exists h. split; [done|]. apply Hkeep. simpl. apply lookup_insert_eq.
  - intros k v Hk. apply Hkeep. simpl. rewrite lookup_insert_ne; [done|].
    intros <-. congruence.
Qed.

(** Registering a list of nodes on a new ring.  When the identifiers all
    hash, to pairwise different hashes, every [AddNode] registers its
    node: the sequence and the mapping hold as many entries as there are
    nodes, and in package [hashring] the identifier of each node resolves
    to the node. *)
Theorem AddNode_all opts (ns : list Node) :
  NoDup ((λ n, generateHash (HashRingInit (Node:=Node) opts) (GetIdentifier n))
           <$> ns) →
  Forall (λ n, is_Some (generateHash (HashRingInit (Node:=Node) opts)
                          (GetIdentifier n))) ns →
  let ring := run opts (Add <$> ns) in
  length (sortedKeyOfNodes ring) = length ns ∧
  size (nodes ring) = length ns ∧
  (∀ n, n ∈ ns → res (hashring.GetNode ring (GetIdentifier n)) = Return n).
Proof.
  intros Hnd Hsome ring.
  destruct (adds_fresh (generateHash (HashRingInit (Node:=Node) opts)) ns
              (HashRingInit opts)) as (Hc & Hg & Hlen & Hreg & _);
    [apply consistent_init | done | done | |].
  { eapply Forall_impl; [done|]. simpl. intros n [h Hh]. exists h.
    split; [done|]. apply lookup_empty. }
  fold (run opts (Add <$> ns)) in Hc, Hg, Hlen, Hreg. fold ring in Hc, Hg, Hlen, Hreg.
  simpl in Hlen. split_and!; [done | by rewrite registered_count | ].
  intros n (h & Hh & Hn)%Hreg.
  apply (hashring_GetNode_at_hash _ _ h); [done | by rewrite Hg | done].
Qed.

Lemma options_keep_HashFunction (logs : list HashRingConfigFn) c :
  Forall (λ opt, ∃ enabled, opt = EnableVerboseLogs enabled) logs →
  HashFunction (fold_left (λ config opt, opt config) logs c) = HashFunction c.
Proof.
  revert c. induction logs as [|opt logs IH]; intros c Hlogs; simpl; [done|].
  apply Forall_cons in Hlogs as [[enabled ->] Hlogs]. by rewrite IH.
Qed.

Lemma options_keep_EnableLogs (hs : list HashRingConfigFn) c :
  Forall (λ opt, ∃ f, opt = SetHashFunction f) hs →
  EnableLogs (fold_left (λ config opt, opt config) hs c) = EnableLogs c.
Proof.
  revert c. induction hs as [|opt hs IH]; intros c Hhs; simpl; [done|].
  apply Forall_cons in Hhs as [[f ->] Hhs]. by rewrite IH.
Qed.

(** Construction.  [HashRingInit] returns a ring with an empty mapping and
    an empty sequence whatever the options; the options apply in order,
    so the last [SetHashFunction] fixes the hash function and the last
    [EnableVerboseLogs] fixes the logging switch, which is off when no
    logging option is given; and the ring hashes with the hash function so
    fixed after any sequence of calls. *)
Theorem HashRingInit_options opts :
  nodes (HashRingInit (Node:=Node) opts) = ∅ ∧
  sortedKeyOfNodes (HashRingInit (Node:=Node) opts) = [] ∧
  (∀ f logs,
     Forall (λ opt, ∃ enabled, opt = EnableVerboseLogs enabled) logs →
     HashFunction (config (HashRingInit (Node:=Node)
                             (opts ++ SetHashFunction f :: logs))) = f ∧
     ∀ (ops : list op) key,
       generateHash (run (opts ++ SetHashFunction f :: logs) ops) key
         = hash.Sum64 f
             <$> hash.Write f (hash.New f) (String.list_byte_of_string key)) ∧
  (∀ enabled hs,
     Forall (λ opt, ∃ f, opt = SetHashFunction f) hs →
     EnableLogs (config (HashRingInit (Node:=Node)
                           (opts ++ EnableVerboseLogs enabled :: hs)))
       = enabled) ∧
  (Forall (λ opt, ∃ f, opt = SetHashFunction f) opts →
   EnableLogs (config (HashRingInit (Node:=Node) opts)) = false).
Proof.
  split_and!; [done | done | | |].
  - intros f logs Hlogs.
    assert (HashFunction (config (HashRingInit (Node:=Node)
                             (opts ++ SetHashFunction f :: logs))) = f) as Hf.
    { unfold HashRingInit. simpl. rewrite fold_left_app. simpl.
      by rewrite options_keep_HashFunction. }
    split; [done|]. intros ops key. unfold generateHash.
    rewrite config_run, Hf. by destruct (hash.Write f _ _).
  - intros enabled hs Hhs. unfold HashRingInit. simpl.
    rewrite fold_left_app. simpl. by rewrite options_keep_EnableLogs.
  - intros Hopts. unfold HashRingInit. simpl.
    by rewrite options_keep_EnableLogs.
Qed.

(** Log records.  A call prints at most one record, and only when it
    succeeds on a ring whose logging switch is on: [AddNode] and
    [RemoveNode] print the identifier and its hash, [GetNode] prints the
    key, its hash and the stored hash the search selected.  A call that
    returns an error prints nothing. *)
Theorem log_records ring :
  (∀ node,
     logged (AddNode ring node) =
       match res (AddNode ring node),
             generateHash ring (GetIdentifier node) with
       | Return _, Some h =>
           if EnableLogs (config ring)
           then [LogAdded (GetIdentifier node) h] else []
       | _, _ => []
       end) ∧
  (∀ node,
     logged (RemoveNode ring node) =
       match res (RemoveNode ring node),
             generateHash ring (GetIdentifier node) with
       | Return _, Some h =>
           if EnableLogs (config ring)
           then [LogRemoved (GetIdentifier node) h] else []
       | _, _ => []
       end) ∧
  (∀ key,
     let selected h :=
       sortedKeyOfNodes ring
         !!! search_index (sortedKeyOfNodes ring) (int64 h) in
     logged (hashring.GetNode ring key) =
       match res (hashring.GetNode ring key), generateHash ring key with
       | Return _, Some h =>
           if EnableLogs (config ring)
           then [LogMapped key h (selected h)] else []
       | _, _ => []
       end ∧
     logged (consistenthash.GetNode ring key) =
       match res (consistenthash.GetNode ring key), generateHash ring key with
       | Return _, Some h =>
           if EnableLogs (config ring)
           then [LogMapped key h (selected h)] else []
       | _, _ => []
       end).
Proof.
  split_and!.
  - intros node. unfold AddNode.
    destruct (generateHash ring (GetIdentifier node)) as [h|]; [|done].
    by destruct (nodes ring !! Uint64 h).
  - intros node. unfold RemoveNode.
    destruct (generateHash ring (GetIdentifier node)) as [h|]; [|done].
    simpl. destruct (nodes ring !! Uint64 h); [|done].
    destruct (binarySearch _ _); [|done..]. by case_decide.
  - intros key selected. subst selected.
    unfold hashring.GetNode, consistenthash.GetNode.
    destruct (generateHash ring key) as [h|]; [|done].
    destruct (decide (sortedKeyOfNodes ring = [])) as [Hnil|Hne].
    { by rewrite binarySearch_empty. }
    rewrite binarySearch_nonempty by done.
    destruct (sortedKeyOfNodes ring !! _) as [s|] eqn:Hs; [|done].
    rewrite (list_lookup_total_correct _ _ _ Hs).
    by destruct (nodes ring !! Uint64 (uint64 s)), (nodes ring !! Int64 s).
Qed.

End coverage.

(** The conversions between the hash and the stored value.  [AddNode]
    stores [int64(hashVal)] and [GetNode] of package [hashring] loads
    [uint64(nodeHash)]: the two conversions are inverse to each other on
    their ranges, and the stored order is the order of the hashes except
    that the hashes from [2^63] on come before the hashes below [2^63]. *)
Theorem hash_conversions :
  (∀ h, is_uint64 h → is_int64 (int64 h) ∧ uint64 (int64 h) = h) ∧
  (∀ v, is_int64 v → is_uint64 (uint64 v) ∧ int64 (uint64 v) = v) ∧
  (∀ a b, is_uint64 a → is_uint64 b → a < b →
          (int64 a < int64 b ↔ b < 2 ^ 63 ∨ 2 ^ 63 ≤ a)).
Proof.
  split_and!.
  - intros h Hh. split; [apply int64_is_int64 | by apply uint64_int64].
  - intros v Hv. split; [apply uint64_is_uint64 | by apply int64_uint64].
  - intros a b Ha Hb Hab.
    assert (∀ h, is_uint64 h →
              int64 h = if decide (h < 2 ^ 63) then h else h - 2 ^ 64) as Hint.
    { intros h Hh. pose proof (uint64_int64 h Hh) as Hrt.
      pose proof (int64_is_int64 h) as Hr.
      rewrite (uint64_of_int64 _ Hr) in Hrt.
      unfold is_uint64, is_int64 in *. repeat case_decide; lia. }
    rewrite (Hint a Ha), (Hint b Hb). unfold is_uint64 in *.
    repeat case_decide; lia.
Qed.

(** ** On the rings of the tests *)

Lemma three_nodes_reachable : reachable three_nodes.
Proof. by eexists _, _. Qed.

Lemma binarySearch_leftmost_witness :
  match binarySearch three_nodes 0 with
  | Return index =>
      (index < length (sortedKeyOfNodes three_nodes))%nat ∧
      ((∃ v, sortedKeyOfNodes three_nodes !! index = Some v ∧ 0 ≤ v ∧
             ∀ (j : nat) w, (j < index)%nat →
                            sortedKeyOfNodes three_nodes !! j = Some w → w < 0) ∨
       (index = 0%nat ∧ ∀ w, w ∈ sortedKeyOfNodes three_nodes → w < 0))
  | Fail err =>
      err = Sentinel ErrNoConnectedNodes ∧ sortedKeyOfNodes three_nodes = []
  | Panic => False
  end.
Proof.
  apply binarySearch_leftmost. apply strictly_sorted_le.
  apply (consistent_sorted _ (reachable_consistent _ three_nodes_reachable)).
Defined.

Lemma index_and_slices_in_range_witness :
  (2 < length (sortedKeyOfNodes three_nodes))%nat ∧
  res (RemoveNode three_nodes node2) ≠ Panic.
Proof.
  destruct (index_and_slices_in_range three_nodes node2 "key1")
    as (Hindex & Hremove & _).
  split; [|done].
  apply (Hindex (int64 14577797341288543277)). by vm_compute.
Defined.

Lemma binarySearch_registered_witness :
  ∃ index : nat,
    binarySearch three_nodes (int64 14577797341288543277) = Return index ∧
    sortedKeyOfNodes three_nodes !! index = Some (int64 14577797341288543277).
Proof.
  apply (binarySearch_registered three_nodes 14577797341288543277 node2).
  - apply three_nodes_reachable.
  - by vm_compute.
Defined.

Lemma hashring_GetNode_selects_successor_witness :
  ∃ s node,
    res (hashring.GetNode three_nodes "user:123") = Return node ∧
    nodes three_nodes !! Uint64 (uint64 s) = Some node ∧
    ring_successor (sortedKeyOfNodes three_nodes)
      (int64 6854786647135007512) s ∧
    ring_successor (uint64 <$> sortedKeyOfNodes three_nodes)
      6854786647135007512 (uint64 s).
Proof.
  apply hashring_GetNode_selects_successor.
  - apply three_nodes_reachable.
  - by vm_compute.
  - by vm_compute.
Defined.

Lemma hashring_GetNode_lookup_succeeds_witness :
  ¬ failed (res (hashring.GetNode three_nodes "key1")) ErrNodeNotFound ∧
  (is_Some (generateHash three_nodes "key1") →
   sortedKeyOfNodes three_nodes ≠ [] →
   ∃ node, res (hashring.GetNode three_nodes "key1") = Return node).
Proof.
  apply hashring_GetNode_lookup_succeeds.
  intros v Hv. apply consistent_sequence_registered; [|done].
  apply reachable_consistent, three_nodes_reachable.
Defined.

Lemma consistenthash_GetNode_outcomes_witness :
  res (consistenthash.GetNode three_nodes "key1")
    = Fail (Errorf ErrNodeNotFound "no node found for key key1").
Proof.
  rewrite (consistenthash_GetNode_outcomes three_nodes "key1")
    by apply three_nodes_reachable.
  by vm_compute.
Defined.

Lemma hashring_GetNode_registered_witness :
  res (hashring.GetNode three_nodes (GetIdentifier node2)) = Return node2.
Proof.
  apply (hashring_GetNode_registered three_nodes node2).
  - apply three_nodes_reachable.
  - exists (Uint64 14577797341288543277). by vm_compute.
Defined.

Lemma hashring_GetNode_single_node_witness :
  res (hashring.GetNode (run [] [Add node1]) "any-key") = Return node1.
Proof.
  apply hashring_GetNode_single_node.
  - by eexists _, _.
  - by vm_compute.
  - exists (Uint64 14577794042753658644). by vm_compute.
  - eexists. by vm_compute.
Defined.

(** [main.go] registers [node-1], [node-2], [node-3]; removing through
    another object with the identifier [node-2] removes the registered
    one. *)
Lemma RemoveNode_removes_witness :
  let demo id data := {| ID := id; Data := data |} in
  let ring := run [] [Add (demo "node-1" ∅); Add (demo "node-2" ∅);
                      Add (demo "node-3" ∅)] in
  let other := demo "node-2" {[ "k" := "v" ]} in
  other ≠ demo "node-2" ∅ ∧
  res (RemoveNode ring other) = Return () ∧
  (∀ key, res (hashring.GetNode (ring_after (RemoveNode ring other)) key)
            ≠ Return (demo "node-2" ∅)).
Proof.
  intros demo ring other.
  split; [by intros [= Hd%(f_equal (λ m : gmap string string, m !! "k"))]|].
  pose proof (RemoveNode_removes ring (demo "node-2" ∅) other
                16615729293254228854) as Hrm.
  destruct Hrm as (Hres & _ & _ & _ & _ & _ & Hget).
  - by eexists _, _.
  - by vm_compute.
  - by vm_compute.
  - by split.
Defined.

Lemma RemoveNode_not_found_witness :
  res (RemoveNode three_nodes node2) = Return () ∧
  ring_after (RemoveNode (HashRingInit []) node2) = HashRingInit [].
Proof.
  destruct (RemoveNode_not_found three_nodes node2) as (_ & _ & Hok).
  destruct (RemoveNode_not_found (HashRingInit []) node2) as (Hiff & Hsame & _).
  split.
  - apply (Hok three_nodes_reachable).
    exists 14577797341288543277.
    split; [by vm_compute | eexists; by vm_compute].
  - apply Hsame, Hiff. exists 14577797341288543277.
    split; by vm_compute.
Defined.

Lemma sequence_determined_by_mapping_witness :
  sortedKeyOfNodes (run (Node:=mockNode) [] [Add node1; Add node2])
    = sortedKeyOfNodes (run [] [Add node2; Add node1; Add node3; Remove node3]).
Proof.
  apply sequence_determined_by_mapping.
  - by eexists _, _.
  - by eexists _, _.
  - by vm_compute.
Defined.

Lemma AddNode_RemoveNode_witness :
  let ring : HashRing mockNode := run [] [Add node1] in
  ring_after (RemoveNode (ring_after (AddNode ring node2)) node2) = ring.
Proof.
  intros ring. apply AddNode_RemoveNode.
  - by eexists _, _.
  - by vm_compute.
Defined.

Lemma RemoveNode_AddNode_witness :
  ring_after (AddNode (ring_after (RemoveNode three_nodes node2)) node2)
    = three_nodes.
Proof.
  apply RemoveNode_AddNode.
  - apply three_nodes_reachable.
  - exists (Uint64 14577797341288543277). by vm_compute.
Defined.

Lemma AddNode_commute_witness :
  let ring : HashRing mockNode := HashRingInit [] in
  ring_after (AddNode (ring_after (AddNode ring node1)) node2)
    = ring_after (AddNode (ring_after (AddNode ring node2)) node1).
Proof.
  intros ring. apply AddNode_commute. vm_compute. by intros [=].
Defined.

Lemma AddNode_moves_keys_to_new_node_witness :
  let ring : HashRing mockNode := run [] [Add node2; Add node3] in
  res (hashring.GetNode ring "user:123") = Return node3 ∧
  (res (hashring.GetNode (ring_after (AddNode ring node1)) "user:123")
     = Return node3 ∨
   res (hashring.GetNode (ring_after (AddNode ring node1)) "user:123")
     = Return node1).
Proof.
  intros ring.
  assert (res (hashring.GetNode ring "user:123") = Return node3) as Hget
    by by vm_compute.
  split; [done |].
  refine (proj2 (AddNode_moves_keys_to_new_node ring node1 "user:123" _ _)
            node3 Hget).
  - by eexists _, _.
  - by vm_compute.
Defined.

Lemma AddNode_all_witness :
  let ring : HashRing mockNode := run [] (Add <$> [node1; node2; node3]) in
  length (sortedKeyOfNodes ring) = 3%nat ∧
  size (nodes ring) = 3%nat ∧
  (∀ n, n ∈ [node1; node2; node3] →
        res (hashring.GetNode ring (GetIdentifier n)) = Return n).
Proof.
  apply (AddNode_all [] [node1; node2; node3]).
  - apply (bool_decide_unpack _). by vm_compute.
  - apply (bool_decide_unpack _). by vm_compute.
Defined.

Lemma HashRingInit_options_witness :
  HashFunction (config (HashRingInit (Node:=mockNode)
                          ([] ++ SetHashFunction fnv.New64
                              :: [EnableVerboseLogs true]))) = fnv.New64 ∧
  EnableLogs (config (HashRingInit (Node:=mockNode)
                        ([] ++ EnableVerboseLogs true
                            :: [SetHashFunction fnv.New64]))) = true.
Proof.
  destruct (HashRingInit_options (Node:=mockNode) [])
    as (_ & _ & Hhash & Hlogs & _).
  split.
  - apply Hhash. constructor; [by exists true | constructor].
  - apply Hlogs. constructor; [by eexists | constructor].
Defined.

Lemma hash_conversions_witness :
  uint64 (int64 14577794042753658644) = 14577794042753658644 ∧
  ¬ int64 6348322678519998343 < int64 14577794042753658644.
Proof.
  destruct hash_conversions as (Hu & _ & Hord). split.
  - apply Hu. unfold is_uint64. lia.
  - intros Hlt.
    assert (is_uint64 6348322678519998343) as Ha by (unfold is_uint64; lia).
    assert (is_uint64 14577794042753658644) as Hb by (unfold is_uint64; lia).
    apply (proj1 (Hord _ _ Ha Hb ltac:(lia))) in Hlt. lia.
Defined.
